(** * ai-games: the two chat-driven text games, [wargames.py] and
    [treasureisland.py]

    A shallow embedding of the conversational loop of both programs:
    the transcript and its truncation, the call to the completion
    service with its retries, the interpretation of interactive input,
    and the turn counter.  The remote service and the terminal are the
    environment: they are given as scripts (a stream of service outcomes
    and a stream of input events) that the programs consume in order,
    and everything the programs do to the outside is recorded in a trace
    of events. *)

From Stdlib Require Import String Ascii.
From Stdlib Require Import List NArith ZArith Arith Bool Lia.
Import ListNotations.

(** ** Python values *)

Module Py.

(** A Python [str] is a sequence of code points; [len] is [length]. *)
Definition str : Type := list N.

(** An ASCII literal of the source, as a [str]. *)
Definition lit (s : string) : str := map N_of_ascii (list_ascii_of_string s).
Arguments lit s%_string : simpl never.

Definition str_eqb (a b : str) : bool :=
  if list_eq_dec N.eq_dec a b then true else false.

(** [x in [a, b, ...]] on strings. *)
Definition str_in (x : str) (l : list str) : bool := existsb (str_eqb x) l.

(** [not s]: the empty string is falsy. *)
Definition falsy (s : str) : bool :=
  match s with [] => true | _ :: _ => false end.

(** The code points [str.strip()] removes (CPython's
    [_PyUnicode_IsWhitespace]). *)
Definition isspace (c : N) : bool :=
  (((9 <=? c) && (c <=? 13)) || ((28 <=? c) && (c <=? 32))
   || (c =? 133) || (c =? 160) || (c =? 5760)
   || ((8192 <=? c) && (c <=? 8202))
   || (c =? 8232) || (c =? 8233) || (c =? 8239) || (c =? 8287)
   || (c =? 12288))%N.

Fixpoint lstrip (s : str) : str :=
  match s with
  | [] => []
  | c :: r => if isspace c then lstrip r else s
  end.

Definition rstrip (s : str) : str := rev (lstrip (rev s)).

Definition strip (s : str) : str := rstrip (lstrip s).

(** [s.startswith(p)] *)
Fixpoint startswith (p s : str) : bool :=
  match p, s with
  | [], _ => true
  | _ :: _, [] => false
  | a :: p', b :: s' => (a =? b)%N && startswith p' s'
  end.

(** [needle in hay] on strings: substring search. *)
Fixpoint contains (needle hay : str) : bool :=
  startswith needle hay
  || match hay with
     | [] => false
     | _ :: hay' => contains needle hay'
     end.

(** [l[i:]] for any integer [i]: a negative index counts from the end,
    and both ends are clamped to the list. *)
Definition slice_from {A : Type} (i : Z) (l : list A) : list A :=
  let n := Z.of_nat (length l) in
  let start := if (i <? 0)%Z then Z.max (n + i)%Z 0 else Z.min i n in
  skipn (Z.to_nat start) l.

(** [l[:j]] for any integer [j]. *)
Definition slice_to {A : Type} (j : Z) (l : list A) : list A :=
  let n := Z.of_nat (length l) in
  let stop := if (j <? 0)%Z then Z.max (n + j)%Z 0 else Z.min j n in
  firstn (Z.to_nat stop) l.

(** ASCII lower-casing of one code point: what [str.lower()] does to
    a string of ASCII characters. *)
Definition ascii_lower (c : N) : N :=
  if ((65 <=? c) && (c <=? 90))%N then (c + 32)%N else c.

Definition is_ascii (c : N) : bool := (c <? 128)%N.

End Py.

Import Py.

(** ** Data shared by the two programs *)

(** A chat message: the dict [{"role": ..., "content": ...}]. *)
Record Message : Type := { role : str; content : str }.

Definition system_message (prompt : str) : Message :=
  {| role := lit "system"; content := prompt |}.

(** What one call of [client.chat.completions.create] does: it returns a
    response whose first choice carries the text, or raises. *)
Inductive outcome : Type :=
| Success (text : str)
| RateLimitError
| APIConnectionError (e : str)
| AuthenticationError
| OtherException (e : str).

(** What one call of [input()] does. *)
Inductive input_event : Type :=
| Line (raw : str)
| EOFError
| KeyboardInterrupt.

(** The environment of a run: the credential variable, the script of
    the completion service (outcome of the n-th call) and the script of
    the terminal (outcome of the n-th [input()]).  The vendor's client
    constructor raises when it finds no key at all; whether it also
    raises on a key that is the empty string is left open by
    [client_rejects_empty_key]. *)
Record environ : Type := {
  OPENAI_API_KEY : option str;
  client_rejects_empty_key : bool;
  service : nat -> outcome;
  stdin : nat -> input_event
}.

(** How a process is going: at one of its suspension points, ended with
    an exit status, or killed by an exception nobody caught. *)
Inductive location : Type :=
| AtScenario
| AwaitingResponse
| AwaitingInput
| Exit (status : Z)
| Uncaught.

(** What a program writes to the terminal for one piece of output: the
    strings handed to [print], in order, and the pauses of [time.sleep]
    between them.  A pause is counted in milliseconds; the source's
    delays are 0, 0.01, 0.02 and 0.05 seconds. *)
Inductive tty : Type :=
| Write (s : str)
| Pause (ms : N).

(** The characters written, in order. *)
Definition written (out : list tty) : str :=
  flat_map (fun t => match t with Write s => s | Pause _ => [] end) out.

(** The pauses made, in order. *)
Definition pauses (out : list tty) : list N :=
  flat_map (fun t => match t with Write _ => [] | Pause ms => [ms] end) out.

Definition newline : str := [10%N].

(** ** wargames.py *)

Module Wargames.

(** What the program prints, by source line; the decorative text is
    left out. *)
Inductive output : Type :=
| MissingKey                      (* lines 11-12 *)
| Welcome                         (* lines 154-166 *)
| Initializing (scenario : str)   (* lines 175-176 *)
| RateLimitNotice (wait_time : N) (* line 120 *)
| ErrorReport (text : str)        (* lines 190-191 *)
| Narrative (text : str)          (* lines 194-197 *)
| Terminated                      (* lines 205-206 *)
| AwaitingDecision (turn : nat)   (* lines 210-212 *)
| Aborted.                        (* line 217 *)

Inductive event : Type :=
| Print (o : output)
| Call (messages : list Message)   (* client.chat.completions.create *)
| Sleep (seconds : N).             (* asyncio.sleep *)

(** The side of the world the program has touched: how many service
    calls and [input()] calls it has made, and what it did, in order. *)
Record io : Type := { calls : nat; reads : nat; trace : list event }.

Definition emit (evs : list event) (w : io) : io :=
  {| calls := calls w; reads := reads w; trace := trace w ++ evs |}.

Definition called (messages : list Message) (w : io) : io :=
  {| calls := S (calls w); reads := reads w;
     trace := trace w ++ [Call messages] |}.

Definition did_read (w : io) : io :=
  {| calls := calls w; reads := S (reads w); trace := trace w |}.

Record GameState : Type := {
  messages : list Message;
  turn_number : nat;
  scenario_name : str
}.

Definition GameState_init : GameState :=
  {| messages := []; turn_number := 0; scenario_name := [] |}.

Definition add_message (r c : str) (self : GameState) : GameState :=
  {| messages := messages self ++ [{| role := r; content := c |}];
     turn_number := turn_number self;
     scenario_name := scenario_name self |}.

(** The method reads [self] and hands back the list to send, so it is a
    state transformer that returns its state as it found it.  Under
    the guard the list has more than 16 elements, so [self.messages[0]]
    exists. *)
Definition get_messages_for_api (self : GameState)
  : list Message * GameState :=
  if 16 <? length (messages self) then
    (match messages self with
     | m0 :: _ => [m0] ++ slice_from (-15) (messages self)
     | [] => []
     end, self)
  else (messages self, self).

Definition max_retries : nat := 3.

(** The body of [for attempt in range(max_retries)]; the fall-through
    after the loop is the empty range. *)
Fixpoint attempts (svc : nat -> outcome) (msgs : list Message)
    (range : list nat) (w : io) : str * io :=
  match range with
  | [] => (lit "ERROR: Maximum retries exceeded.", w)
  | attempt :: rest =>
      let w1 := called msgs w in
      match svc (calls w) with
      | Success text => (text, w1)
      | RateLimitError =>
          if attempt <? max_retries - 1 then
            let wait_time := (2 ^ N.of_nat attempt)%N in
            attempts svc msgs rest
              (emit [Print (RateLimitNotice wait_time); Sleep wait_time] w1)
          else
            (lit "ERROR: Rate limit exceeded. Please try again later.", w1)
      | APIConnectionError _ =>
          (lit "ERROR: Unable to connect to OpenAI API. Please check your internet connection.", w1)
      | AuthenticationError =>
          (lit "ERROR: Invalid API key. Please check your OPENAI_API_KEY environment variable.", w1)
      | OtherException e =>
          if attempt <? max_retries - 1 then
            attempts svc msgs rest (emit [Sleep 1%N] w1)
          else
            (lit "ERROR: Unable to get AI response: " ++ e, w1)
      end
  end.

Definition get_ai_response (svc : nat -> outcome) (msgs : list Message)
    (w : io) : str * io :=
  attempts svc msgs (seq 0 max_retries) w.

Definition end_keywords : list str :=
  [lit "game over"; lit "simulation ended"; lit "crisis resolved";
   lit "war ended"; lit "scenario complete"].

Definition quit_words : list str := [lit "quit"; lit "exit"; lit "end"].

Definition default_scenario : str :=
  lit "Generate a random Cold War crisis scenario and begin the simulation.".

Definition default_action : str :=
  lit "Continue the simulation and present the next decision point.".

(** The durations slept, in order. *)
Definition sleeps (tr : list event) : list N :=
  flat_map (fun ev => match ev with Sleep n => [n] | _ => [] end) tr.

(** The message lists sent to the service, in order. *)
Definition sent (tr : list event) : list (list Message) :=
  flat_map (fun ev => match ev with Call m => [m] | _ => [] end) tr.

Section Program.

(** [str.lower]; its Unicode tables are not reproduced, theorems that
    depend on it assume what it does to ASCII strings. *)
Variable lower : str -> str.

(** The system prompt (lines 90-102); no control flow reads it. *)
Variable game_instructions : str.

(** [any(keyword in ai_response.lower() for keyword in end_keywords)] *)
Definition isTerminal (ai_response : str) : bool :=
  existsb (fun keyword => contains keyword (lower ai_response)) end_keywords.

Record state : Type := {
  game_state : GameState;
  world : io;
  pc : location
}.

(** Module top level (lines 9-15), then [main] up to its first
    [input()]. *)
Definition start (e : environ) : state :=
  match OPENAI_API_KEY e with
  | Some (_ :: _) =>
      {| game_state := GameState_init;
         world := {| calls := 0; reads := 0; trace := [Print Welcome] |};
         pc := AtScenario |}
  | _ =>
      {| game_state := GameState_init;
         world := {| calls := 0; reads := 0; trace := [Print MissingKey] |};
         pc := Exit 1 |}
  end.

Definition with_turn (n : nat) (gs : GameState) : GameState :=
  {| messages := messages gs; turn_number := n;
     scenario_name := scenario_name gs |}.

Definition with_scenario_name (s : str) (gs : GameState) : GameState :=
  {| messages := messages gs; turn_number := turn_number gs;
     scenario_name := s |}.

(** Lines 168-180: read the scenario and seed the transcript. *)
Definition read_scenario (e : environ) (s : state) : state :=
  match stdin e (reads (world s)) with
  | Line raw =>
      let user_scenario := strip raw in
      let user_scenario :=
        if falsy user_scenario then default_scenario else user_scenario in
      let name :=
        if 50 <? length user_scenario
        then slice_to 50 user_scenario ++ lit "..."
        else user_scenario in
      let gs := with_scenario_name name (game_state s) in
      let gs := add_message (lit "system") game_instructions gs in
      let gs := add_message (lit "user") user_scenario gs in
      {| game_state := gs;
         world := emit [Print (Initializing user_scenario)]
                    (did_read (world s));
         pc := AwaitingResponse |}
  | _ =>
      {| game_state := game_state s; world := did_read (world s);
         pc := Uncaught |}
  end.

(** Lines 184-212: one pass from the top of [while True] to the next
    [input()], to the [continue] or to the [break]. *)
Definition request (e : environ) (s : state) : state :=
  let gs := with_turn (turn_number (game_state s) + 1) (game_state s) in
  let '(msgs, gs) := get_messages_for_api gs in
  let '(ai_response, w) := get_ai_response (service e) msgs (world s) in
  if startswith (lit "ERROR:") ai_response then
    {| game_state := gs; world := emit [Print (ErrorReport ai_response)] w;
       pc := AwaitingResponse |}
  else
    let w := emit [Print (Narrative ai_response)] w in
    let gs := add_message (lit "assistant") ai_response gs in
    if isTerminal ai_response then
      {| game_state := gs; world := emit [Print Terminated] w; pc := Exit 0 |}
    else
      {| game_state := gs;
         world := emit [Print (AwaitingDecision (turn_number gs))] w;
         pc := AwaitingInput |}.

(** Lines 214-224: read the player's decision. *)
Definition read_action (e : environ) (s : state) : state :=
  match stdin e (reads (world s)) with
  | Line raw =>
      let user_input := strip raw in
      if str_in (lower user_input) quit_words then
        {| game_state := game_state s;
           world := emit [Print Aborted] (did_read (world s));
           pc := Exit 0 |}
      else
        let user_input :=
          if falsy user_input then default_action else user_input in
        {| game_state := add_message (lit "user") user_input (game_state s);
           world := did_read (world s);
           pc := AwaitingResponse |}
  | _ =>
      {| game_state := game_state s; world := did_read (world s);
         pc := Uncaught |}
  end.

Definition step (e : environ) (s : state) : state :=
  match pc s with
  | AtScenario => read_scenario e s
  | AwaitingResponse => request e s
  | AwaitingInput => read_action e s
  | Exit _ | Uncaught => s
  end.

Fixpoint run (e : environ) (n : nat) : state :=
  match n with
  | 0 => start e
  | S k => step e (run e k)
  end.

Definition reachable (s : state) : Prop := exists e n, run e n = s.

(** The states of the session loop: its two suspension points. *)
Definition in_loop (s : state) : bool :=
  match pc s with
  | AwaitingResponse | AwaitingInput => true
  | _ => false
  end.

(** The transcript exists once it holds a message. *)
Definition initialized (s : state) : bool :=
  match messages (game_state s) with
  | [] => false
  | _ :: _ => true
  end.

End Program.

(** *** Terminal output *)

(** The table of [get_typewriter_delay], in milliseconds. *)
Definition speeds : list (str * N) :=
  [(lit "instant", 0%N); (lit "fast", 10%N);
   (lit "medium", 20%N); (lit "slow", 50%N)].

(** [speeds.get(CONFIG["typewriter_speed"], 0.02)]; the argument is the
    configured speed. *)
Definition get_typewriter_delay (typewriter_speed : str) : N :=
  match find (fun kv => str_eqb (fst kv) typewriter_speed) speeds with
  | Some kv => snd kv
  | None => 20%N
  end.

(** [typewriter_print(text, delay=None, prefix="")]: [None] for the
    default of [delay]. *)
Definition typewriter_print (typewriter_speed : str)
    (text : str) (delay : option N) (prefix : str) : list tty :=
  let delay :=
    match delay with
    | None => get_typewriter_delay typewriter_speed
    | Some d => d
    end in
  (if falsy prefix then [] else [Write prefix])
  ++ flat_map (fun char =>
                 Write [char]
                 :: (if (0 <? delay)%N then [Pause delay] else []))
              text
  ++ [Write newline].

(** [f"{title:^60}"]: a title shorter than the width is padded with
    spaces, the left padding being half of the total, rounded down. *)
Definition center60 (title : str) : str :=
  let total := Nat.max 60 (length title) in
  let lpadding := (total - length title) / 2 in
  let rpadding := total - length title - lpadding in
  repeat 32%N lpadding ++ title ++ repeat 32%N rpadding.

(** [print_header]: the three lines printed. *)
Definition print_header (title : str) : list str :=
  let border := repeat 61%N 60 in
  [border; center60 title; border].

(** [print_separator]: the line printed. *)
Definition print_separator : str := repeat 45%N 60.

End Wargames.

(** ** treasureisland.py *)

Module TreasureIsland.

Inductive output : Type :=
| ClientError                   (* line 9: the traceback of the exception
                                   the client constructor raises *)
| Banner                        (* lines 111-115 *)
| NoKeyWarning                  (* line 122 *)
| Loading                       (* line 134 *)
| ErrorShown (text : str)       (* line 138 *)
| Narrative (text : str)        (* lines 141-142 *)
| Stats (turns : nat)           (* print_stats, the play time left out *)
| ThankYou                      (* line 155 *)
| TurnPrompt (turn : nat)       (* lines 159-160 *)
| Abandoned                     (* line 167 *)
| Help                          (* lines 172-177 *)
| InvalidAction                 (* line 191 *)
| Interrupted                   (* line 194 *)
| UnexpectedError.              (* lines 198-199 *)

Inductive event : Type :=
| Print (o : output)
| Call (messages : list Message).  (* client.chat.completions.create *)

Record io : Type := { calls : nat; reads : nat; trace : list event }.

Definition emit (evs : list event) (w : io) : io :=
  {| calls := calls w; reads := reads w; trace := trace w ++ evs |}.

Definition called (messages : list Message) (w : io) : io :=
  {| calls := S (calls w); reads := reads w;
     trace := trace w ++ [Call messages] |}.

Definition did_read (w : io) : io :=
  {| calls := calls w; reads := S (reads w); trace := trace w |}.

Definition sent (tr : list event) : list (list Message) :=
  flat_map (fun ev => match ev with Call m => [m] | _ => [] end) tr.

(** [GameStats] without its start time, which only the printed play
    time reads. *)
Record GameStats : Type := { turns : nat; actions_taken : list str }.

Definition GameStats_init : GameStats := {| turns := 0; actions_taken := [] |}.

Definition add_action (action : str) (self : GameStats) : GameStats :=
  {| turns := turns self + 1;
     actions_taken := actions_taken self ++ [action] |}.

(** The two code points of the warning sign that starts every error
    string of this program: U+26A0 U+FE0F. *)
Definition warning_sign : str := [9888%N; 65039%N].

(** One call, no retry: every exception becomes a string. *)
Definition get_ai_response (svc : nat -> outcome) (msgs : list Message)
    (w : io) : str * io :=
  let w1 := called msgs w in
  match svc (calls w) with
  | Success text => (text, w1)
  | RateLimitError =>
      (warning_sign ++ lit " Rate limit exceeded. Please wait a moment and try again.", w1)
  | AuthenticationError =>
      (warning_sign ++ lit " Authentication error. Please check your OpenAI API key.", w1)
  | APIConnectionError e | OtherException e =>
      (warning_sign ++ lit " Error getting AI response: " ++ e, w1)
  end.

Definition validate_user_input (user_input : str) : option str :=
  if falsy user_input || falsy (strip user_input) then None
  else
    let cleaned_input := slice_to 500 (strip user_input) in
    Some cleaned_input.

(** Lines 148-149.  Under the guard the list has more than 13 elements,
    so [messages[0]] exists. *)
Definition trim (messages : list Message) : list Message :=
  if 13 <? length messages then
    match messages with
    | m0 :: _ => [m0] ++ slice_from (-12) messages
    | [] => []
    end
  else messages.

Definition end_keywords : list str :=
  [lit "game over"; lit "adventure ended"; lit "the end";
   lit "you have died"; lit "treasure found"].

Definition quit_words : list str := [lit "quit"; lit "exit"; lit "end"].

Definition opening_request : str :=
  lit "Begin the Treasure Island adventure. Set the scene and provide the opening scenario.".

Section Program.

(** [str.lower]; its Unicode tables are not reproduced, theorems that
    depend on it assume what it does to ASCII strings. *)
Variable lower : str -> str.

(** The system prompt (lines 53-81); no control flow reads it. *)
Variable game_instructions : str.

Definition isTerminal (ai_response : str) : bool :=
  existsb (fun keyword => contains keyword (lower ai_response)) end_keywords.

Record state : Type := {
  messages : list Message;
  game_stats : GameStats;
  world : io;
  pc : location
}.

(** Module top level (line 9), then [main] up to [while True].  Line 9
    builds the client before [main] looks at the variable.  With the
    variable absent the constructor finds no key and raises: the
    interpreter prints the traceback, which carries the constructor's
    message, and the process ends with status 1 before [main] has run.
    With the variable set but empty the guard of [main] (lines 121-123)
    prints its warning and returns, and the process ends as any script
    that ran to its end, unless the constructor objects to the empty
    key too. *)
Definition start (e : environ) : state :=
  match OPENAI_API_KEY e with
  | Some (_ :: _) =>
      {| messages :=
           [system_message game_instructions;
            {| role := lit "user"; content := opening_request |}];
         game_stats := GameStats_init;
         world := {| calls := 0; reads := 0; trace := [Print Banner] |};
         pc := AwaitingResponse |}
  | Some [] =>
      if client_rejects_empty_key e then
        {| messages := []; game_stats := GameStats_init;
           world := {| calls := 0; reads := 0; trace := [Print ClientError] |};
           pc := Exit 1 |}
      else
        {| messages := []; game_stats := GameStats_init;
           world := {| calls := 0; reads := 0;
                       trace := [Print Banner; Print NoKeyWarning] |};
           pc := Exit 0 |}
  | None =>
      {| messages := []; game_stats := GameStats_init;
         world := {| calls := 0; reads := 0; trace := [Print ClientError] |};
         pc := Exit 1 |}
  end.

(** Lines 134-160: from the top of the outer loop to the inner loop, or
    to a [break]. *)
Definition request (e : environ) (s : state) : state :=
  let w := emit [Print Loading] (world s) in
  let '(ai_response, w) := get_ai_response (service e) (messages s) w in
  if startswith warning_sign ai_response then
    {| messages := messages s; game_stats := game_stats s;
       world := emit [Print (ErrorShown ai_response)] w; pc := Exit 0 |}
  else
    let w := emit [Print (Narrative ai_response)] w in
    let msgs :=
      messages s ++ [{| role := lit "assistant"; content := ai_response |}] in
    let msgs := trim msgs in
    if isTerminal ai_response then
      {| messages := msgs; game_stats := game_stats s;
         world := emit [Print (Stats (turns (game_stats s))); Print ThankYou] w;
         pc := Exit 0 |}
    else
      {| messages := msgs; game_stats := game_stats s;
         world := emit [Print (TurnPrompt (turns (game_stats s) + 1))] w;
         pc := AwaitingInput |}.

(** Lines 163-200: one pass of the inner loop, with the two handlers of
    the enclosing [try].  [if validated_input:] is taken for a string
    that is not empty. *)
Definition read_action (e : environ) (s : state) : state :=
  let w := did_read (world s) in
  match stdin e (reads (world s)) with
  | Line raw =>
      let user_action := strip raw in
      if str_in (lower user_action) quit_words then
        {| messages := messages s; game_stats := game_stats s;
           world := emit [Print Abandoned;
                          Print (Stats (turns (game_stats s)))] w;
           pc := Exit 0 |}
      else if str_eqb (lower user_action) (lit "help") then
        {| messages := messages s; game_stats := game_stats s;
           world := emit [Print Help] w; pc := AwaitingInput |}
      else if str_eqb (lower user_action) (lit "stats") then
        {| messages := messages s; game_stats := game_stats s;
           world := emit [Print (Stats (turns (game_stats s)))] w;
           pc := AwaitingInput |}
      else
        match validate_user_input user_action with
        | Some (c :: r) =>
            let validated_input := c :: r in
            {| messages :=
                 messages s
                 ++ [{| role := lit "user"; content := validated_input |}];
               game_stats := add_action validated_input (game_stats s);
               world := w; pc := AwaitingResponse |}
        | _ =>
            {| messages := messages s; game_stats := game_stats s;
               world := emit [Print InvalidAction] w; pc := AwaitingInput |}
        end
  | EOFError =>
      {| messages := messages s; game_stats := game_stats s;
         world := emit [Print UnexpectedError] w; pc := AwaitingResponse |}
  | KeyboardInterrupt =>
      {| messages := messages s; game_stats := game_stats s;
         world := emit [Print Interrupted;
                        Print (Stats (turns (game_stats s)))] w;
         pc := Exit 0 |}
  end.

Definition step (e : environ) (s : state) : state :=
  match pc s with
  | AwaitingResponse => request e s
  | AwaitingInput => read_action e s
  | AtScenario | Exit _ | Uncaught => s
  end.

Fixpoint run (e : environ) (n : nat) : state :=
  match n with
  | 0 => start e
  | S k => step e (run e k)
  end.

Definition reachable (s : state) : Prop := exists e n, run e n = s.

Definition in_loop (s : state) : bool :=
  match pc s with
  | AwaitingResponse | AwaitingInput => true
  | _ => false
  end.

Definition initialized (s : state) : bool :=
  match messages s with
  | [] => false
  | _ :: _ => true
  end.

End Program.

(** *** Terminal output and statistics *)

(** [typewriter_print(text, delay=0.02)]: a pause after every
    character, whatever the delay. *)
Definition typewriter_print (text : str) (delay : N) : list tty :=
  flat_map (fun char => [Write [char]; Pause delay]) text
  ++ [Write newline].

(** The [seconds] field of the [timedelta] between two readings of the
    clock that are [elapsed_us] microseconds apart: the whole seconds
    within the day, the days being a field of their own. *)
Definition timedelta_seconds (elapsed_us : Z) : Z :=
  ((elapsed_us / 1000000) mod 86400)%Z.

(** The minutes and seconds [print_stats] prints for a play time:
    [play_time.seconds // 60] and [play_time.seconds % 60]. *)
Definition play_time_shown (elapsed_us : Z) : Z * Z :=
  let seconds := timedelta_seconds elapsed_us in
  ((seconds / 60)%Z, (seconds mod 60)%Z).

End TreasureIsland.

(** ** Notions used in the statements *)

(** What the theorems assume of [str.lower]: on a string of ASCII
    characters it lower-cases the letters A-Z and nothing else. *)
Definition lower_on_ascii (lower : str -> str) : Prop :=
  forall s, forallb is_ascii s = true -> lower s = map ascii_lower s.

(** A lower-casing that fulfils the assumption, for concrete runs. *)
Definition ascii_only_lower : str -> str := map ascii_lower.

(** Two strings are equal up to the case of their ASCII letters. *)
Definition caseless_eq (a b : str) : Prop :=
  map ascii_lower a = map ascii_lower b.

Definition reserved_words : list str :=
  [lit "quit"; lit "exit"; lit "end"; lit "help"; lit "stats"].

(** What the inner loop of treasureisland takes for a command. *)
Definition ti_reserved (lower : str -> str) (user_action : str) : bool :=
  str_in (lower user_action) TreasureIsland.quit_words
  || str_eqb (lower user_action) (lit "help")
  || str_eqb (lower user_action) (lit "stats").

(** A string that does not start with whitespace. *)
Definition clean_front (s : str) : Prop :=
  match s with
  | [] => True
  | c :: _ => isspace c = false
  end.

(** The invariant of the whole wargames process: before the scenario
    is read the transcript is empty; in the loop it is not; whenever it
    is not empty its first message is the system prompt; and every list
    that was sent to the service starts with the system prompt. *)
Definition wg_invariant (game_instructions : str) (s : Wargames.state)
  : Prop :=
  (Wargames.pc s = AtScenario ->
   Wargames.messages (Wargames.game_state s) = [])
  /\ (Wargames.in_loop s = true -> Wargames.initialized s = true)
  /\ (Wargames.initialized s = true ->
      nth_error (Wargames.messages (Wargames.game_state s)) 0
      = Some (system_message game_instructions))
  /\ Forall (fun m => nth_error m 0 = Some (system_message game_instructions))
            (Wargames.sent (Wargames.trace (Wargames.world s))).

(** The invariant of the whole treasureisland process: in the loop
    the transcript is not empty; whenever it is not empty its first
    message is the system prompt; every list that was sent to the
    service starts with the system prompt; and the turn counter is the
    number of actions accepted so far. *)
Definition ti_invariant (game_instructions : str) (s : TreasureIsland.state)
  : Prop :=
  (TreasureIsland.in_loop s = true -> TreasureIsland.initialized s = true)
  /\ (TreasureIsland.initialized s = true ->
      nth_error (TreasureIsland.messages s) 0
      = Some (system_message game_instructions))
  /\ Forall (fun m => nth_error m 0 = Some (system_message game_instructions))
            (TreasureIsland.sent
               (TreasureIsland.trace (TreasureIsland.world s)))
  /\ TreasureIsland.turns (TreasureIsland.game_stats s)
     = length (TreasureIsland.actions_taken (TreasureIsland.game_stats s)).

Definition total (l : list N) : N := fold_right N.add 0%N l.

(** Is this outcome one that wargames does not retry? *)
Definition final_failure (o : outcome) : bool :=
  match o with
  | AuthenticationError | APIConnectionError _ => true
  | _ => false
  end.

Definition is_success (o : outcome) : bool :=
  match o with
  | Success _ => true
  | _ => false
  end.

(** The service answers, and the answer neither looks like an error
    nor ends the game. *)
Definition goes_on (lower : str -> str) (o : outcome) : bool :=
  match o with
  | Success text =>
      negb (startswith TreasureIsland.warning_sign text)
      && negb (TreasureIsland.isTerminal lower text)
  | _ => false
  end.

(** The role of the message at each index of a well-formed transcript:
    the system prompt, then user and assistant in turn. *)
Definition expected_role (i : nat) : str :=
  match i with
  | 0 => lit "system"
  | S _ => if Nat.odd i then lit "user" else lit "assistant"
  end.

Definition alternating (l : list Message) : Prop :=
  map role l = map expected_role (seq 0 (length l)).

Definition wg_shape (s : Wargames.state) : Prop :=
  alternating (Wargames.messages (Wargames.game_state s))
  /\ (Wargames.pc s = AtScenario ->
      Wargames.messages (Wargames.game_state s) = [])
  /\ (Wargames.pc s = AwaitingResponse ->
      Nat.even (length (Wargames.messages (Wargames.game_state s))) = true
      /\ 2 <= length (Wargames.messages (Wargames.game_state s)))
  /\ (Wargames.pc s = AwaitingInput ->
      Nat.odd (length (Wargames.messages (Wargames.game_state s))) = true).

(** The transcript of treasureisland has at most 13 messages when the
    player is asked, at most 14 when the service is. *)
Definition ti_bounded (s : TreasureIsland.state) : Prop :=
  length (TreasureIsland.messages s) <= 14
  /\ (TreasureIsland.pc s = AwaitingInput ->
      length (TreasureIsland.messages s) <= 13)
  /\ Forall (fun m => length m <= 14)
            (TreasureIsland.sent (TreasureIsland.trace (TreasureIsland.world s))).

Definition well_formed_action (a : str) : Prop :=
  a <> [] /\ length a <= 500 /\ clean_front a.

(** An assistant message whose content does not start with [marker]. *)
Definition clean_answer (marker : str) (m : Message) : Prop :=
  role m = lit "assistant" -> startswith marker (content m) = false.

(** ** Scripts and inputs of concrete runs *)

(** A finite script of the service or of the terminal: the n-th call
    gets the n-th entry, and [default] after the last. *)
Definition script {A : Type} (l : list A) (default : A) : nat -> A :=
  fun n => nth n l default.

Definition io0 : Wargames.io :=
  {| Wargames.calls := 0; Wargames.reads := 0; Wargames.trace := [] |}.

Definition ti_io0 : TreasureIsland.io :=
  {| TreasureIsland.calls := 0; TreasureIsland.reads := 0;
     TreasureIsland.trace := [] |}.

(** Three rate-limit failures, then a success. *)
Definition three_failures_then_success : nat -> outcome :=
  script [RateLimitError; RateLimitError; RateLimitError;
          Success (lit "You find a chest.")]
         (Success (lit "You find a chest.")).

Definition two_failures_then_success : nat -> outcome :=
  script [RateLimitError; RateLimitError; Success (lit "You find a chest.")]
         AuthenticationError.

(** A session of each game, for concrete runs: the player names a
    scenario (wargames only), asks for help, looks at the statistics,
    enters a blank line, acts, and the input ends. *)
Definition session : environ :=
  {| OPENAI_API_KEY := Some (lit "sk-test");
     client_rejects_empty_key := true;
     service := script [Success (lit "Choose your side. 1. NATO 2. Warsaw Pact")]
                       (Success (lit "Tension rises. What now?"));
     stdin := script [Line (lit "Berlin Wall crisis"); Line (lit "Help");
                      Line (lit "stats"); Line (lit "   ");
                      Line (lit " 1 NATO ")]
                     EOFError |}.

Definition instructions : str := lit "You are the game master.".

(** No credential. *)
Definition no_key : environ :=
  {| OPENAI_API_KEY := None;
     client_rejects_empty_key := true;
     service := script [] (Success (lit "unreachable"));
     stdin := script [] EOFError |}.

(** The first call fails for good (a connection failure is not
    retried), the second succeeds. *)
Definition one_failed_call : environ :=
  {| OPENAI_API_KEY := Some (lit "sk-test");
     client_rejects_empty_key := true;
     service := script [APIConnectionError (lit "Connection error.")]
                       (Success (lit "Choose your side."));
     stdin := script [Line (lit "Berlin Wall crisis")] EOFError |}.

(** A free-form input of 501 letters, after a scenario. *)
Definition long_input : environ :=
  {| OPENAI_API_KEY := Some (lit "sk-test");
     client_rejects_empty_key := true;
     service := script [] (Success (lit "Choose your side."));
     stdin := script [Line (lit "Berlin Wall crisis");
                      Line (repeat 97%N 501)]
                     EOFError |}.

(** A transcript of 17 numbered messages. *)
Definition numbered (n : nat) : Message :=
  {| role := lit "user"; content := [N.of_nat n] |}.

Definition transcript_of_17 : list Message := map numbered (seq 0 17).

Definition always_unauthenticated : nat -> outcome :=
  fun _ => AuthenticationError.

Definition always_broken : nat -> outcome :=
  fun n => OtherException [N.of_nat n].

Definition ti_first_call_fails : environ :=
  {| OPENAI_API_KEY := Some (lit "sk-test");
     client_rejects_empty_key := true;
     service := script [RateLimitError] (Success (lit "You wake on a beach."));
     stdin := script [] EOFError |}.

Definition wrong_key : environ :=
  {| OPENAI_API_KEY := Some (lit "sk-wrong");
     client_rejects_empty_key := true;
     service := always_unauthenticated;
     stdin := script [Line (lit "Berlin Wall crisis"); Line (lit "quit")]
                     EOFError |}.

Definition closed_input : environ :=
  {| OPENAI_API_KEY := Some (lit "sk-test");
     client_rejects_empty_key := true;
     service := fun _ => Success (lit "The tide is coming in. What now?");
     stdin := fun _ => EOFError |}.



(** A session of wargames that never ends: the service always answers
    and the player always acts. *)
Definition endless : environ :=
  {| OPENAI_API_KEY := Some (lit "sk-test");
     client_rejects_empty_key := true;
     service := fun _ => Success (lit "Tension rises. What now?");
     stdin := fun _ => Line (lit "hold the line") |}.

Definition blank_scenario : environ :=
  {| OPENAI_API_KEY := Some (lit "sk-test");
     client_rejects_empty_key := true;
     service := fun _ => Success (lit "DEFCON 3. Choose your side.");
     stdin := script [Line (lit "  ")] EOFError |}.

(** * Properties *)

(** ** Lists and slices *)

Section ListFacts.

Context {A : Type}.

(** [l[-k:]] is the last [k] elements when there are that many; [k]
    must be positive, [l[-0:]] being the whole list. *)
Lemma slice_from_last (k : nat) (l : list A) :
  0 < k <= length l ->
  slice_from (- Z.of_nat k) l = skipn (length l - k) l.
Proof.
  intros Hk. unfold slice_from. cbv zeta.
  destruct (Z.ltb_spec (- Z.of_nat k) 0) as [Hneg | Hpos]; [| lia].
  f_equal. lia.
Qed.

Lemma length_slice_from_last (k : nat) (l : list A) :
  0 < k <= length l -> length (slice_from (- Z.of_nat k) l) = k.
Proof.
  intros Hk. rewrite slice_from_last by assumption.
  rewrite length_skipn. lia.
Qed.

Lemma length_slice_from_le (i : Z) (l : list A) :
  (i < 0)%Z -> length (slice_from i l) <= Z.to_nat (- i).
Proof.
  intros Hi. unfold slice_from. cbv zeta.
  destruct (Z.ltb_spec i 0); [| lia].
  rewrite length_skipn. lia.
Qed.

Lemma length_slice_to (j : nat) (l : list A) :
  length (slice_to (Z.of_nat j) l) = Nat.min j (length l).
Proof.
  unfold slice_to. cbv zeta.
  destruct (Z.ltb_spec (Z.of_nat j) 0); [lia |].
  rewrite length_firstn. lia.
Qed.

Lemma nth_error_0_app (l l' : list A) :
  l <> [] -> nth_error (l ++ l') 0 = nth_error l 0.
Proof. destruct l; [congruence | reflexivity]. Qed.

End ListFacts.

(** ** Truncation of the transcript *)

Lemma ti_trim_long (T : list Message) :
  13 < length T ->
  exists m0, nth_error T 0 = Some m0
             /\ TreasureIsland.trim T = m0 :: skipn (length T - 12) T.
Proof.
  intros Hlen. unfold TreasureIsland.trim.
  destruct (Nat.ltb_spec 13 (length T)) as [_ | Hle]; [| lia].
  destruct T as [| m0 rest]; [simpl in Hlen; lia |].
  exists m0. split; [reflexivity |].
  change (-12)%Z with (- Z.of_nat 12)%Z.
  rewrite slice_from_last by lia. reflexivity.
Qed.

Lemma ti_trim_short (T : list Message) :
  length T <= 13 -> TreasureIsland.trim T = T.
Proof.
  intros Hlen. unfold TreasureIsland.trim.
  destruct (Nat.ltb_spec 13 (length T)); [lia | reflexivity].
Qed.

Lemma wg_api_long (gs : Wargames.GameState) :
  16 < length (Wargames.messages gs) ->
  exists m0, nth_error (Wargames.messages gs) 0 = Some m0
             /\ fst (Wargames.get_messages_for_api gs)
                = m0 :: skipn (length (Wargames.messages gs) - 15)
                           (Wargames.messages gs).
Proof.
  intros Hlen. unfold Wargames.get_messages_for_api.
  destruct (Nat.ltb_spec 16 (length (Wargames.messages gs))) as [_ | Hle];
    [| lia].
  destruct (Wargames.messages gs) as [| m0 rest] eqn:Hm;
    [simpl in Hlen; lia |].
  exists m0. split; [reflexivity |]. simpl fst.
  change (-15)%Z with (- Z.of_nat 15)%Z.
  rewrite slice_from_last by lia. reflexivity.
Qed.

Lemma wg_api_short (gs : Wargames.GameState) :
  length (Wargames.messages gs) <= 16 ->
  fst (Wargames.get_messages_for_api gs) = Wargames.messages gs.
Proof.
  intros Hlen. unfold Wargames.get_messages_for_api.
  destruct (Nat.ltb_spec 16 (length (Wargames.messages gs)));
    [lia | reflexivity].
Qed.

(** C2.  A transcript longer than the threshold is cut to exactly
    1 + K messages, the first of which is the transcript's first: in
    treasureisland the threshold is 13 and K is 12, in wargames
    ([get_messages_for_api]) the threshold is 16 and K is 15. *)
Theorem trim_keeps_first_and_last_K
    (T : list Message) (gs : Wargames.GameState)
    (HT : 13 < length T) (Hgs : 16 < length (Wargames.messages gs)) :
  (length (TreasureIsland.trim T) = 1 + 12
   /\ nth_error (TreasureIsland.trim T) 0 = nth_error T 0)
  /\ (length (fst (Wargames.get_messages_for_api gs)) = 1 + 15
      /\ nth_error (fst (Wargames.get_messages_for_api gs)) 0
         = nth_error (Wargames.messages gs) 0).
Proof.
  split.
  - destruct (ti_trim_long T HT) as (m0 & H0 & ->). split.
    + simpl. rewrite length_skipn. lia.
    + now rewrite H0.
  - destruct (wg_api_long gs Hgs) as (m0 & H0 & ->). split.
    + simpl. rewrite length_skipn. lia.
    + now rewrite H0.
Qed.

Lemma trim_keeps_first_and_last_K_witness :
  (length (TreasureIsland.trim transcript_of_17) = 13
   /\ nth_error (TreasureIsland.trim transcript_of_17) 0 = Some (numbered 0))
  /\ (length (fst (Wargames.get_messages_for_api
                     {| Wargames.messages := transcript_of_17;
                        Wargames.turn_number := 0;
                        Wargames.scenario_name := [] |})) = 16
      /\ nth_error (fst (Wargames.get_messages_for_api
                           {| Wargames.messages := transcript_of_17;
                              Wargames.turn_number := 0;
                              Wargames.scenario_name := [] |})) 0
         = Some (numbered 0)).
Proof.
  apply (trim_keeps_first_and_last_K transcript_of_17
           {| Wargames.messages := transcript_of_17;
              Wargames.turn_number := 0;
              Wargames.scenario_name := [] |}).
  - vm_compute. lia.
  - vm_compute. lia.
Defined.

(** ** Calling the completion service *)

Lemma wg_sleeps_app (tr tr' : list Wargames.event) :
  Wargames.sleeps (tr ++ tr') = Wargames.sleeps tr ++ Wargames.sleeps tr'.
Proof. apply flat_map_app. Qed.

Lemma wg_sent_app (tr tr' : list Wargames.event) :
  Wargames.sent (tr ++ tr') = Wargames.sent tr ++ Wargames.sent tr'.
Proof. apply flat_map_app. Qed.

(** Whatever the service does, [get_ai_response] calls it between one
    and three times, always with the messages it was given, and only
    adds to the trace. *)
Lemma wg_attempts_trace (svc : nat -> outcome) (msgs : list Message)
    (range : list nat) (w : Wargames.io) :
  exists evs,
    Wargames.trace (snd (Wargames.attempts svc msgs range w))
    = Wargames.trace w ++ evs
    /\ Wargames.sent evs
       = repeat msgs (Wargames.calls (snd (Wargames.attempts svc msgs range w))
                      - Wargames.calls w)
    /\ Wargames.calls w
       <= Wargames.calls (snd (Wargames.attempts svc msgs range w))
       <= Wargames.calls w + length range
    /\ Wargames.reads (snd (Wargames.attempts svc msgs range w))
       = Wargames.reads w.
Proof.
  revert w. induction range as [| attempt rest IH]; intros w.
  - exists []. simpl. rewrite app_nil_r, Nat.sub_diag.
    repeat split; try reflexivity; lia.
  - assert (Hone : exists evs,
               Wargames.trace (Wargames.called msgs w) = Wargames.trace w ++ evs
               /\ Wargames.sent evs
                  = repeat msgs (Wargames.calls (Wargames.called msgs w)
                                 - Wargames.calls w)
               /\ Wargames.calls w <= Wargames.calls (Wargames.called msgs w)
                  <= Wargames.calls w + length (attempt :: rest)
               /\ Wargames.reads (Wargames.called msgs w) = Wargames.reads w).
    { exists [Wargames.Call msgs].
      cbn [Wargames.called Wargames.calls Wargames.trace Wargames.reads
           Wargames.sent flat_map app length].
      replace (S (Wargames.calls w) - Wargames.calls w) with 1 by lia.
      repeat split; try reflexivity; lia. }
    assert (Hmore : forall extra,
               Wargames.sent extra = [] ->
               exists evs,
                 Wargames.trace
                   (snd (Wargames.attempts svc msgs rest
                           (Wargames.emit extra (Wargames.called msgs w))))
                 = Wargames.trace w ++ evs
                 /\ Wargames.sent evs
                    = repeat msgs
                        (Wargames.calls
                           (snd (Wargames.attempts svc msgs rest
                                   (Wargames.emit extra
                                      (Wargames.called msgs w))))
                         - Wargames.calls w)
                 /\ Wargames.calls w
                    <= Wargames.calls
                         (snd (Wargames.attempts svc msgs rest
                                 (Wargames.emit extra (Wargames.called msgs w))))
                    <= Wargames.calls w + length (attempt :: rest)
                 /\ Wargames.reads
                      (snd (Wargames.attempts svc msgs rest
                              (Wargames.emit extra (Wargames.called msgs w))))
                    = Wargames.reads w).
    { intros extra Hextra.
      destruct (IH (Wargames.emit extra (Wargames.called msgs w)))
        as (evs & Htr & Hsent & Hcalls & Hreads).
      cbn [Wargames.called Wargames.emit Wargames.calls Wargames.trace
           Wargames.reads] in Htr, Hsent, Hcalls, Hreads.
      exists ([Wargames.Call msgs] ++ extra ++ evs).
      rewrite Htr, Hreads. cbn [length].
      repeat split; try lia.
      - now rewrite <- !app_assoc.
      - rewrite !wg_sent_app, Hextra, Hsent. simpl.
        replace (Wargames.calls
                   (snd (Wargames.attempts svc msgs rest
                           (Wargames.emit extra (Wargames.called msgs w))))
                 - Wargames.calls w)
          with (S (Wargames.calls
                     (snd (Wargames.attempts svc msgs rest
                             (Wargames.emit extra (Wargames.called msgs w))))
                   - S (Wargames.calls w))) by lia.
        reflexivity. }
    cbn [Wargames.attempts]. cbv zeta.
    destruct (svc (Wargames.calls w)); try exact Hone.
    + destruct (attempt <? Wargames.max_retries - 1); [| exact Hone].
      apply Hmore. reflexivity.
    + destruct (attempt <? Wargames.max_retries - 1); [| exact Hone].
      apply Hmore. reflexivity.
Qed.

Lemma wg_get_ai_response_trace (svc : nat -> outcome) (msgs : list Message)
    (w : Wargames.io) :
  exists evs,
    Wargames.trace (snd (Wargames.get_ai_response svc msgs w))
    = Wargames.trace w ++ evs
    /\ Forall (eq msgs) (Wargames.sent evs)
    /\ Wargames.reads (snd (Wargames.get_ai_response svc msgs w))
       = Wargames.reads w.
Proof.
  destruct (wg_attempts_trace svc msgs (seq 0 Wargames.max_retries) w)
    as (evs & Htr & Hsent & _ & Hreads).
  exists evs. repeat split; try assumption.
  rewrite Hsent. apply Forall_forall. intros x Hx.
  symmetry. exact (repeat_spec _ _ _ Hx).
Qed.

(** The equations of one pass of the retry loop. *)
Lemma attempts_success svc msgs attempt rest w text :
  svc (Wargames.calls w) = Success text ->
  Wargames.attempts svc msgs (attempt :: rest) w
  = (text, Wargames.called msgs w).
Proof. intros H. cbn [Wargames.attempts]. now rewrite H. Qed.

Lemma attempts_rate_limit_retry svc msgs attempt rest w :
  svc (Wargames.calls w) = RateLimitError ->
  attempt < 2 ->
  Wargames.attempts svc msgs (attempt :: rest) w
  = Wargames.attempts svc msgs rest
      (Wargames.emit
         [Wargames.Print (Wargames.RateLimitNotice (2 ^ N.of_nat attempt));
          Wargames.Sleep (2 ^ N.of_nat attempt)]
         (Wargames.called msgs w)).
Proof.
  intros H Hlt. cbn [Wargames.attempts]. rewrite H.
  change (Wargames.max_retries - 1) with 2.
  destruct (Nat.ltb_spec attempt 2); [reflexivity | lia].
Qed.

Lemma attempts_rate_limit_last svc msgs attempt rest w :
  svc (Wargames.calls w) = RateLimitError ->
  2 <= attempt ->
  Wargames.attempts svc msgs (attempt :: rest) w
  = (lit "ERROR: Rate limit exceeded. Please try again later.",
     Wargames.called msgs w).
Proof.
  intros H Hge. cbn [Wargames.attempts]. rewrite H.
  change (Wargames.max_retries - 1) with 2.
  destruct (Nat.ltb_spec attempt 2); [lia | reflexivity].
Qed.

(** C1, as stated, fails.  After three consecutive rate-limit failures
    wargames' [get_ai_response] has used its three attempts: it slept
    twice (1 s, 2 s), made three calls, and returns its error string;
    the success that would have come fourth is never asked for.
    treasureisland's [get_ai_response] gives up after the first failure
    without sleeping at all. *)
Lemma three_rate_limits_exhaust_the_attempts :
  let r := Wargames.get_ai_response three_failures_then_success [] io0 in
  let r' :=
    TreasureIsland.get_ai_response three_failures_then_success [] ti_io0 in
  fst r = lit "ERROR: Rate limit exceeded. Please try again later."
  /\ fst r <> lit "You find a chest."
  /\ Wargames.sleeps (Wargames.trace (snd r)) = [1%N; 2%N]
  /\ Wargames.calls (snd r) = 3
  /\ fst r' <> lit "You find a chest."
  /\ TreasureIsland.calls (snd r') = 1.
Proof.
  vm_compute. repeat split; discriminate.
Qed.

(** C1, amended.  The retry cap counts attempts, three of them.  For
    two consecutive rate-limit failures followed by a success, wargames'
    [get_ai_response] returns the successful text after exactly two
    delayed retries, waiting 1 s and then 2 s, and three calls, each
    with the messages it was given. *)
Theorem two_rate_limits_then_success
    (svc : nat -> outcome) (msgs : list Message) (w : Wargames.io)
    (text : str)
    (H0 : svc (Wargames.calls w) = RateLimitError)
    (H1 : svc (S (Wargames.calls w)) = RateLimitError)
    (H2 : svc (S (S (Wargames.calls w))) = Success text) :
  let r := Wargames.get_ai_response svc msgs w in
  fst r = text
  /\ Wargames.sleeps (Wargames.trace (snd r))
     = Wargames.sleeps (Wargames.trace w) ++ [1%N; 2%N]
  /\ (1 < 2)%N
  /\ Wargames.sent (Wargames.trace (snd r))
     = Wargames.sent (Wargames.trace w) ++ [msgs; msgs; msgs]
  /\ Wargames.calls (snd r) = Wargames.calls w + 3.
Proof.
  unfold Wargames.get_ai_response. cbn [seq Wargames.max_retries].
  rewrite attempts_rate_limit_retry by (assumption || lia).
  rewrite attempts_rate_limit_retry by (assumption || lia).
  rewrite attempts_success with (text := text) by assumption.
  cbn [fst snd Wargames.called Wargames.emit Wargames.trace Wargames.calls].
  repeat split.
  - rewrite !wg_sleeps_app. cbn. rewrite !app_nil_r.
    now rewrite <- !app_assoc.
  - rewrite !wg_sent_app. cbn. rewrite !app_nil_r.
    now rewrite <- !app_assoc.
  - lia.
Qed.

Lemma two_rate_limits_then_success_witness :
  fst (Wargames.get_ai_response two_failures_then_success [] io0)
  = lit "You find a chest."
  /\ Wargames.sleeps
       (Wargames.trace
          (snd (Wargames.get_ai_response two_failures_then_success [] io0)))
     = [1%N; 2%N].
Proof.
  destruct (two_rate_limits_then_success two_failures_then_success []
              io0 (lit "You find a chest.")
              eq_refl eq_refl eq_refl) as (Htext & Hsleeps & _).
  split; [exact Htext | exact Hsleeps].
Defined.

(** A third consecutive rate-limit failure ends the loop: the guard
    [attempt < max_retries - 1] is false at the last attempt. *)
Lemma third_rate_limit_is_final
    (svc : nat -> outcome) (msgs : list Message) (w : Wargames.io) :
  svc (Wargames.calls w) = RateLimitError ->
  svc (S (Wargames.calls w)) = RateLimitError ->
  svc (S (S (Wargames.calls w))) = RateLimitError ->
  fst (Wargames.get_ai_response svc msgs w)
  = lit "ERROR: Rate limit exceeded. Please try again later."
  /\ Wargames.calls (snd (Wargames.get_ai_response svc msgs w))
     = Wargames.calls w + 3.
Proof.
  intros H0 H1 H2. unfold Wargames.get_ai_response.
  cbn [seq Wargames.max_retries].
  rewrite attempts_rate_limit_retry by (assumption || lia).
  rewrite attempts_rate_limit_retry by (assumption || lia).
  rewrite attempts_rate_limit_last by (assumption || lia).
  cbn [fst snd Wargames.called Wargames.emit Wargames.calls].
  split; [reflexivity | lia].
Qed.

(** An authentication failure is final at once: one call, no sleep. *)
Lemma authentication_failure_is_final
    (svc : nat -> outcome) (msgs : list Message) (w : Wargames.io) :
  svc (Wargames.calls w) = AuthenticationError ->
  Wargames.calls (snd (Wargames.get_ai_response svc msgs w))
  = S (Wargames.calls w)
  /\ Wargames.sleeps (Wargames.trace (snd (Wargames.get_ai_response svc msgs w)))
     = Wargames.sleeps (Wargames.trace w).
Proof.
  intros H0. unfold Wargames.get_ai_response.
  cbn [seq Wargames.max_retries Wargames.attempts]. cbv zeta.
  rewrite H0. cbn [snd Wargames.called Wargames.calls Wargames.trace].
  split; [reflexivity |].
  rewrite wg_sleeps_app. cbn. now rewrite app_nil_r.
Qed.

(** ** Lower-casing and the end-of-session check *)

Lemma ascii_only_lower_ok : lower_on_ascii ascii_only_lower.
Proof. intros s _. reflexivity. Defined.

(** C9.  The end-of-session check of both programs answers true on
    "The Game Over screen appears" and false on
    "The adventure continues". *)
Theorem isTerminal_examples (lower : str -> str)
    (Hlower : lower_on_ascii lower) :
  Wargames.isTerminal lower (lit "The Game Over screen appears") = true
  /\ Wargames.isTerminal lower (lit "The adventure continues") = false
  /\ TreasureIsland.isTerminal lower (lit "The Game Over screen appears") = true
  /\ TreasureIsland.isTerminal lower (lit "The adventure continues") = false.
Proof.
  unfold Wargames.isTerminal, TreasureIsland.isTerminal.
  rewrite !Hlower by reflexivity.
  repeat split; vm_compute; reflexivity.
Qed.

Lemma isTerminal_examples_witness :
  Wargames.isTerminal ascii_only_lower (lit "The Game Over screen appears")
  = true
  /\ Wargames.isTerminal ascii_only_lower (lit "The adventure continues")
     = false
  /\ TreasureIsland.isTerminal ascii_only_lower
       (lit "The Game Over screen appears") = true
  /\ TreasureIsland.isTerminal ascii_only_lower
       (lit "The adventure continues") = false.
Proof.
  exact (isTerminal_examples ascii_only_lower ascii_only_lower_ok).
Defined.

(** The check is a plain substring scan: a scene that mentions
    "the end of the dock" ends the treasureisland session. *)
Example isTerminal_false_positive :
  TreasureIsland.isTerminal ascii_only_lower
    (lit "You walk to the end of the dock.") = true.
Proof. reflexivity. Qed.

(** ** Stripping *)

Lemma lstrip_blank (s : str) : forallb isspace s = true -> lstrip s = [].
Proof.
  induction s as [| c r IH]; [reflexivity |].
  simpl. intros H. apply andb_prop in H as [Hc Hr].
  rewrite Hc. now apply IH.
Qed.

Lemma strip_blank (s : str) : forallb isspace s = true -> strip s = [].
Proof.
  intros H. unfold strip, rstrip.
  rewrite (lstrip_blank s H). reflexivity.
Qed.

Lemma lstrip_nil_blank (s : str) : lstrip s = [] -> forallb isspace s = true.
Proof.
  induction s as [| c r IH]; [reflexivity |].
  simpl. destruct (isspace c); [exact IH | discriminate].
Qed.

Lemma lstrip_suffix (s : str) : exists p, s = p ++ lstrip s /\ forallb isspace p = true.
Proof.
  induction s as [| c r (p & Hp & Hb)].
  - now exists [].
  - simpl. destruct (isspace c) eqn:Hc.
    + exists (c :: p). simpl. rewrite Hc, Hb. split; [now f_equal | reflexivity].
    + now exists [].
Qed.

(** A string strips to nothing exactly when it is empty or all
    whitespace. *)
Lemma strip_nil_iff (s : str) : strip s = [] <-> forallb isspace s = true.
Proof.
  split; [| apply strip_blank].
  unfold strip, rstrip. intros H.
  assert (Hrev : lstrip (rev (lstrip s)) = []).
  { rewrite <- (rev_involutive (lstrip (rev (lstrip s)))), H. reflexivity. }
  apply lstrip_nil_blank in Hrev.
  destruct (lstrip_suffix s) as (p & Hp & Hb).
  rewrite Hp, forallb_app, Hb. simpl.
  rewrite forallb_forall in Hrev |- *.
  intros x Hx. apply Hrev. now apply in_rev in Hx.
Qed.

(** Lower-casing ASCII letters neither makes nor removes an ASCII
    character. *)
Lemma is_ascii_lower (c : N) : is_ascii (ascii_lower c) = is_ascii c.
Proof.
  unfold is_ascii, ascii_lower.
  destruct ((65 <=? c)%N && (c <=? 90)%N) eqn:H; [| reflexivity].
  apply andb_prop in H as [H1 H2].
  apply N.leb_le in H1, H2.
  transitivity true; [| symmetry]; apply N.ltb_lt; lia.
Qed.

Lemma forallb_is_ascii_lower (s : str) :
  forallb is_ascii (map ascii_lower s) = forallb is_ascii s.
Proof.
  induction s as [| c r IH]; [reflexivity |].
  simpl. now rewrite is_ascii_lower, IH.
Qed.

(** An input that equals an ASCII word up to the case of its letters
    is lower-cased to that word. *)
Lemma lower_of_caseless (lower : str -> str) (x word : str) :
  lower_on_ascii lower ->
  forallb is_ascii word = true ->
  map ascii_lower x = word ->
  lower x = word.
Proof.
  intros Hlower Hword Hx.
  rewrite Hlower; [exact Hx |].
  now rewrite <- forallb_is_ascii_lower, Hx.
Qed.

Lemma str_eqb_eq (a b : str) : str_eqb a b = true <-> a = b.
Proof.
  unfold str_eqb. destruct (list_eq_dec N.eq_dec a b); split; congruence.
Qed.

Lemma str_eqb_refl (a : str) : str_eqb a a = true.
Proof. now apply str_eqb_eq. Qed.

(** ** The session loop of wargames *)

(** Reduce the record projections of a wargames state and nothing
    else. *)
Ltac wg_proj :=
  cbn [Wargames.game_state Wargames.world Wargames.pc
       Wargames.messages Wargames.turn_number Wargames.scenario_name
       Wargames.add_message Wargames.with_scenario_name Wargames.with_turn
       Wargames.calls Wargames.reads Wargames.trace
       Wargames.emit Wargames.did_read Wargames.called].

Section WargamesLoop.

Variable lower : str -> str.
Variable game_instructions : str.

Local Abbreviation wg_state := (Wargames.state).
Local Abbreviation wg_messages s := (Wargames.messages (Wargames.game_state s)).
Local Abbreviation wg_turn s := (Wargames.turn_number (Wargames.game_state s)).
Local Abbreviation wg_trace s := (Wargames.trace (Wargames.world s)).
Local Abbreviation wg_step := (Wargames.step lower game_instructions).
Local Abbreviation wg_run := (Wargames.run lower game_instructions).

Lemma wg_api_first (gs : Wargames.GameState) :
  nth_error (fst (Wargames.get_messages_for_api gs)) 0
  = nth_error (Wargames.messages gs) 0.
Proof.
  destruct (Nat.le_gt_cases (length (Wargames.messages gs)) 16) as [Hle | Hgt].
  - now rewrite wg_api_short.
  - destruct (wg_api_long gs Hgt) as (m0 & H0 & ->). now rewrite H0.
Qed.

Lemma wg_api_snd (gs : Wargames.GameState) :
  snd (Wargames.get_messages_for_api gs) = gs.
Proof.
  unfold Wargames.get_messages_for_api.
  destruct (16 <? length (Wargames.messages gs)); reflexivity.
Qed.

(** What one pass of the loop body does, whatever the service answers:
    the turn number goes up by one; the service is called with the
    windowed transcript only; and either the answer is an error string
    and the transcript is untouched, or the answer is appended. *)
Lemma wg_request_does (e : environ) (s : wg_state) :
  let s' := Wargames.request lower e s in
  exists ai evs,
    wg_trace s' = wg_trace s ++ evs
    /\ Forall (fun m => nth_error m 0 = nth_error (wg_messages s) 0)
              (Wargames.sent evs)
    /\ Wargames.reads (Wargames.world s') = Wargames.reads (Wargames.world s)
    /\ wg_turn s' = wg_turn s + 1
    /\ ((startswith (lit "ERROR:") ai = true
         /\ wg_messages s' = wg_messages s
         /\ Wargames.pc s' = AwaitingResponse)
        \/ (startswith (lit "ERROR:") ai = false
            /\ wg_messages s'
               = wg_messages s
                 ++ [{| role := lit "assistant"; content := ai |}]
            /\ (Wargames.pc s' = Exit 0 \/ Wargames.pc s' = AwaitingInput))).
Proof.
  unfold Wargames.request.
  set (gs1 := Wargames.with_turn (wg_turn s + 1) (Wargames.game_state s)).
  pose proof (wg_api_snd gs1) as Hsnd.
  pose proof (wg_api_first gs1) as Hfirst.
  destruct (Wargames.get_messages_for_api gs1) as [msgs gs2].
  simpl in Hsnd, Hfirst. subst gs2.
  destruct (wg_get_ai_response_trace (service e) msgs (Wargames.world s))
    as (evs & Htr & Hsent & Hreads).
  destruct (Wargames.get_ai_response (service e) msgs (Wargames.world s))
    as [ai w].
  simpl in Htr, Hreads.
  assert (Hsent' : Forall (fun m => nth_error m 0 = nth_error (wg_messages s) 0)
                          (Wargames.sent evs)).
  { eapply Forall_impl; [| exact Hsent]. intros m <-. exact Hfirst. }
  exists ai.
  destruct (startswith (lit "ERROR:") ai) eqn:Herr.
  - exists (evs ++ [Wargames.Print (Wargames.ErrorReport ai)]). cbn.
    rewrite Htr, <- app_assoc, wg_sent_app. cbn. rewrite app_nil_r.
    repeat split; try assumption. left. repeat split.
  - destruct (Wargames.isTerminal lower ai).
    + exists (evs ++ [Wargames.Print (Wargames.Narrative ai);
                      Wargames.Print Wargames.Terminated]). cbn.
      rewrite Htr, <- !app_assoc, wg_sent_app. cbn. rewrite app_nil_r.
      repeat split; try assumption. right. repeat split. now left.
    + exists (evs ++ [Wargames.Print (Wargames.Narrative ai);
                      Wargames.Print
                        (Wargames.AwaitingDecision (wg_turn s + 1))]). cbn.
      rewrite Htr, <- !app_assoc, wg_sent_app. cbn. rewrite app_nil_r.
      repeat split; try assumption. right. repeat split. now right.
Qed.

Local Abbreviation system_prompt := (system_message game_instructions).

Lemma wg_invariant_start (e : environ) :
  wg_invariant game_instructions (Wargames.start e).
Proof.
  unfold Wargames.start.
  destruct (OPENAI_API_KEY e) as [[| c k] |];
    (repeat split; cbn; try discriminate; auto).
Qed.

Lemma wg_initialized_app (s : wg_state) (l : list Message) (m : Message) :
  Wargames.messages (Wargames.game_state s) = l ++ [m] ->
  Wargames.initialized s = true.
Proof.
  unfold Wargames.initialized. intros ->. now destruct l.
Qed.

(** Reading the scenario seeds the transcript with the system prompt
    and the scenario, or the process dies on the exception of
    [input()]. *)
Lemma wg_read_scenario_does (e : environ) (s : wg_state) :
  let s' := Wargames.read_scenario game_instructions e s in
  ((exists c,
       wg_messages s'
       = (wg_messages s ++ [system_prompt])
         ++ [{| role := lit "user"; content := c |}]
       /\ Wargames.pc s' = AwaitingResponse)
   \/ (wg_messages s' = wg_messages s /\ Wargames.pc s' = Uncaught))
  /\ Wargames.sent (wg_trace s') = Wargames.sent (wg_trace s)
  /\ wg_turn s' = wg_turn s.
Proof.
  unfold Wargames.read_scenario.
  destruct (stdin e (Wargames.reads (Wargames.world s))); wg_proj.
  - repeat split.
    + left. eexists. split; reflexivity.
    + rewrite wg_sent_app. cbn. now rewrite app_nil_r.
  - repeat split. now right.
  - repeat split. now right.
Qed.

(** Reading a decision ends the session, appends one user message, or
    the process dies on the exception of [input()]. *)
Lemma wg_read_action_does (e : environ) (s : wg_state) :
  let s' := Wargames.read_action lower e s in
  ((exists c,
       wg_messages s'
       = wg_messages s ++ [{| role := lit "user"; content := c |}]
       /\ Wargames.pc s' = AwaitingResponse)
   \/ (wg_messages s' = wg_messages s
       /\ (Wargames.pc s' = Exit 0 \/ Wargames.pc s' = Uncaught)))
  /\ Wargames.sent (wg_trace s') = Wargames.sent (wg_trace s)
  /\ wg_turn s' = wg_turn s.
Proof.
  unfold Wargames.read_action.
  destruct (stdin e (Wargames.reads (Wargames.world s)));
    [destruct (str_in (lower (strip raw)) Wargames.quit_words) |..];
    wg_proj.
  - repeat split.
    + right. split; [reflexivity | now left].
    + rewrite wg_sent_app. cbn. now rewrite app_nil_r.
  - repeat split. left. eexists. split; reflexivity.
  - repeat split. right. split; [reflexivity | now right].
  - repeat split. right. split; [reflexivity | now right].
Qed.

Lemma wg_invariant_step (e : environ) (s : wg_state) :
  wg_invariant game_instructions s ->
  wg_invariant game_instructions (wg_step e s).
Proof.
  intros Hinv. pose proof Hinv as (Hempty & Hloop & Hfirst & Hsent).
  unfold Wargames.step.
  destruct (Wargames.pc s) eqn:Hpc; try exact Hinv.
  - (* the scenario is read *)
    specialize (Hempty eq_refl).
    destruct (wg_read_scenario_does e s) as (Hcases & Hsent' & _).
    cbv zeta in Hcases, Hsent'. rewrite Hempty in Hcases.
    unfold wg_invariant. rewrite Hsent'.
    destruct Hcases as [(c & Hm & Hpc') | (Hm & Hpc')];
      unfold Wargames.in_loop, Wargames.initialized;
      rewrite Hm, Hpc'; repeat split; try discriminate; auto.
  - (* one pass of the loop body *)
    assert (Hinit : Wargames.initialized s = true).
    { apply Hloop. unfold Wargames.in_loop. now rewrite Hpc. }
    specialize (Hfirst Hinit).
    destruct (wg_request_does e s)
      as (ai & evs & Htr & Hsent' & _ & _ & Hcases).
    assert (Hnonempty : wg_messages s <> []).
    { intros Hnil. now rewrite Hnil in Hfirst. }
    repeat split.
    + destruct Hcases as [(_ & _ & Hpc') | (_ & _ & [Hpc' | Hpc'])];
        rewrite Hpc'; discriminate.
    + intros _.
      destruct Hcases as [(_ & Hm & _) | (_ & Hm & _)].
      * unfold Wargames.initialized in *. now rewrite Hm.
      * eapply wg_initialized_app. exact Hm.
    + intros _.
      destruct Hcases as [(_ & Hm & _) | (_ & Hm & _)]; rewrite Hm.
      * exact Hfirst.
      * now rewrite nth_error_0_app.
    + rewrite Htr, wg_sent_app. apply Forall_app. split; [exact Hsent |].
      eapply Forall_impl; [| exact Hsent'].
      intros m Hm. now rewrite Hm.
  - (* the decision is read *)
    assert (Hinit : Wargames.initialized s = true).
    { apply Hloop. unfold Wargames.in_loop. now rewrite Hpc. }
    specialize (Hfirst Hinit).
    assert (Hnonempty : wg_messages s <> []).
    { intros Hnil. now rewrite Hnil in Hfirst. }
    destruct (wg_read_action_does e s) as (Hcases & Hsent' & _).
    cbv zeta in Hcases, Hsent'.
    unfold wg_invariant. rewrite Hsent'.
    destruct Hcases as [(c & Hm & Hpc') | (Hm & Hpc')].
    + repeat split; try assumption.
      * rewrite Hpc'. discriminate.
      * intros _. eapply wg_initialized_app. exact Hm.
      * intros _. rewrite Hm. now rewrite nth_error_0_app.
    + repeat split; try assumption.
      * destruct Hpc' as [Hpc' | Hpc']; rewrite Hpc'; discriminate.
      * intros _. unfold Wargames.initialized in *. now rewrite Hm.
      * intros _. now rewrite Hm.
Qed.

Lemma wg_invariant_run (e : environ) (n : nat) :
  wg_invariant game_instructions (wg_run e n).
Proof.
  induction n as [| n IH]; [apply wg_invariant_start |].
  simpl. now apply wg_invariant_step.
Qed.

(** The turn number never goes down. *)
Lemma wg_turn_step (e : environ) (s : wg_state) :
  wg_turn s <= wg_turn (wg_step e s).
Proof.
  unfold Wargames.step. destruct (Wargames.pc s); try lia.
  - destruct (wg_read_scenario_does e s) as (_ & _ & Hturn).
    cbv zeta in Hturn. lia.
  - destruct (wg_request_does e s) as (_ & _ & _ & _ & _ & Hturn & _).
    cbv zeta in Hturn. lia.
  - destruct (wg_read_action_does e s) as (_ & _ & Hturn).
    cbv zeta in Hturn. lia.
Qed.

Lemma wg_turn_monotone (e : environ) (n k : nat) :
  wg_turn (wg_run e n) <= wg_turn (wg_run e (n + k)).
Proof.
  induction k as [| k IH].
  - now rewrite Nat.add_0_r.
  - rewrite Nat.add_succ_r. simpl.
    etransitivity; [exact IH | apply wg_turn_step].
Qed.

End WargamesLoop.

(** ** The session loop of treasureisland *)

Ltac ti_proj :=
  cbn [TreasureIsland.messages TreasureIsland.game_stats
       TreasureIsland.world TreasureIsland.pc
       TreasureIsland.turns TreasureIsland.actions_taken
       TreasureIsland.calls TreasureIsland.reads TreasureIsland.trace
       TreasureIsland.emit TreasureIsland.did_read TreasureIsland.called].

Lemma ti_sent_app (tr tr' : list TreasureIsland.event) :
  TreasureIsland.sent (tr ++ tr')
  = TreasureIsland.sent tr ++ TreasureIsland.sent tr'.
Proof. apply flat_map_app. Qed.

Lemma ti_trim_first (T : list Message) :
  nth_error (TreasureIsland.trim T) 0 = nth_error T 0.
Proof.
  destruct (Nat.le_gt_cases (length T) 13) as [Hle | Hgt].
  - now rewrite ti_trim_short.
  - destruct (ti_trim_long T Hgt) as (m0 & H0 & ->). now rewrite H0.
Qed.

Lemma ti_get_ai_response_io (svc : nat -> outcome) (msgs : list Message)
    (w : TreasureIsland.io) :
  snd (TreasureIsland.get_ai_response svc msgs w)
  = TreasureIsland.called msgs w.
Proof.
  unfold TreasureIsland.get_ai_response.
  destruct (svc (TreasureIsland.calls w)); reflexivity.
Qed.

Section TreasureIslandLoop.

Variable lower : str -> str.
Variable game_instructions : str.

Local Abbreviation ti_state := (TreasureIsland.state).
Local Abbreviation ti_trace s :=
  (TreasureIsland.trace (TreasureIsland.world s)).
Local Abbreviation ti_turns s :=
  (TreasureIsland.turns (TreasureIsland.game_stats s)).
Local Abbreviation ti_step := (TreasureIsland.step lower).
Local Abbreviation ti_run := (TreasureIsland.run lower game_instructions).
Local Abbreviation system_prompt := (system_message game_instructions).

(** One pass from the top of the outer loop: exactly one call, with
    the whole stored transcript; then either the session ends on an
    error string with the transcript untouched, or the answer is
    appended and the transcript trimmed. *)
Lemma ti_request_does (e : environ) (s : ti_state) :
  let s' := TreasureIsland.request lower e s in
  TreasureIsland.sent (ti_trace s')
  = TreasureIsland.sent (ti_trace s) ++ [TreasureIsland.messages s]
  /\ TreasureIsland.calls (TreasureIsland.world s')
     = S (TreasureIsland.calls (TreasureIsland.world s))
  /\ TreasureIsland.game_stats s' = TreasureIsland.game_stats s
  /\ exists ai,
      (startswith TreasureIsland.warning_sign ai = true
       /\ TreasureIsland.messages s' = TreasureIsland.messages s
       /\ TreasureIsland.pc s' = Exit 0)
      \/ (startswith TreasureIsland.warning_sign ai = false
          /\ TreasureIsland.messages s'
             = TreasureIsland.trim
                 (TreasureIsland.messages s
                  ++ [{| role := lit "assistant"; content := ai |}])
          /\ (TreasureIsland.pc s' = Exit 0
              \/ TreasureIsland.pc s' = AwaitingInput)).
Proof.
  unfold TreasureIsland.request.
  pose proof (ti_get_ai_response_io (service e) (TreasureIsland.messages s)
                (TreasureIsland.emit [TreasureIsland.Print TreasureIsland.Loading]
                   (TreasureIsland.world s))) as Hio.
  destruct (TreasureIsland.get_ai_response (service e)
              (TreasureIsland.messages s)
              (TreasureIsland.emit [TreasureIsland.Print TreasureIsland.Loading]
                 (TreasureIsland.world s))) as [ai w].
  simpl in Hio. subst w.
  destruct (startswith TreasureIsland.warning_sign ai) eqn:Herr;
    [| destruct (TreasureIsland.isTerminal lower ai)];
    ti_proj; rewrite !ti_sent_app; cbn [TreasureIsland.sent flat_map app];
    rewrite !app_nil_r; (repeat split; [idtac]); exists ai.
  - left. repeat split; assumption.
  - right. repeat split; auto.
  - right. repeat split; auto.
Qed.

(** One pass of the inner loop: the transcript and the statistics
    change together, by one accepted action, or not at all; nothing is
    sent. *)
Lemma ti_read_action_does (e : environ) (s : ti_state) :
  let s' := TreasureIsland.read_action lower e s in
  TreasureIsland.sent (ti_trace s') = TreasureIsland.sent (ti_trace s)
  /\ TreasureIsland.calls (TreasureIsland.world s')
     = TreasureIsland.calls (TreasureIsland.world s)
  /\ ((exists c,
          TreasureIsland.messages s'
          = TreasureIsland.messages s
            ++ [{| role := lit "user"; content := c |}]
          /\ TreasureIsland.game_stats s'
             = TreasureIsland.add_action c (TreasureIsland.game_stats s)
          /\ TreasureIsland.pc s' = AwaitingResponse)
      \/ (TreasureIsland.messages s' = TreasureIsland.messages s
          /\ TreasureIsland.game_stats s' = TreasureIsland.game_stats s
          /\ (TreasureIsland.pc s' = Exit 0
              \/ TreasureIsland.pc s' = AwaitingInput
              \/ TreasureIsland.pc s' = AwaitingResponse))).
Proof.
  unfold TreasureIsland.read_action.
  destruct (stdin e (TreasureIsland.reads (TreasureIsland.world s)))
    as [raw | |].
  - destruct (str_in (lower (strip raw)) TreasureIsland.quit_words);
      [| destruct (str_eqb (lower (strip raw)) (lit "help"));
         [| destruct (str_eqb (lower (strip raw)) (lit "stats"));
            [| destruct (TreasureIsland.validate_user_input (strip raw))
                 as [[| c r] |]]]];
      ti_proj; rewrite ?ti_sent_app; cbn [TreasureIsland.sent flat_map app];
      rewrite ?app_nil_r; repeat split;
      try (right; repeat split; auto; fail).
    left. eexists. repeat split.
  - ti_proj. rewrite ?ti_sent_app. cbn [TreasureIsland.sent flat_map app].
    rewrite ?app_nil_r. repeat split. right. repeat split; auto.
  - ti_proj. rewrite ?ti_sent_app. cbn [TreasureIsland.sent flat_map app].
    rewrite ?app_nil_r. repeat split. right. repeat split; auto.
Qed.

Lemma ti_invariant_start (e : environ) :
  ti_invariant game_instructions (TreasureIsland.start game_instructions e).
Proof.
  unfold TreasureIsland.start.
  destruct (OPENAI_API_KEY e) as [[| c k] |];
    try destruct (client_rejects_empty_key e);
    (repeat split; cbn; try discriminate; auto).
Qed.

Lemma ti_initialized_first (s : ti_state) (m : Message) :
  nth_error (TreasureIsland.messages s) 0 = Some m ->
  TreasureIsland.initialized s = true.
Proof.
  unfold TreasureIsland.initialized.
  destruct (TreasureIsland.messages s); [discriminate | reflexivity].
Qed.

Lemma ti_invariant_step (e : environ) (s : ti_state) :
  ti_invariant game_instructions s ->
  ti_invariant game_instructions (ti_step e s).
Proof.
  intros Hinv. pose proof Hinv as (Hloop & Hfirst & Hsent & Hturns).
  unfold TreasureIsland.step.
  destruct (TreasureIsland.pc s) eqn:Hpc; try exact Hinv.
  - (* from the top of the outer loop *)
    assert (Hinit : TreasureIsland.initialized s = true).
    { apply Hloop. unfold TreasureIsland.in_loop. now rewrite Hpc. }
    specialize (Hfirst Hinit).
    assert (Hnonempty : TreasureIsland.messages s <> []).
    { intros Hnil. now rewrite Hnil in Hfirst. }
    destruct (ti_request_does e s) as (Hsent' & _ & Hstats & ai & Hcases).
    cbv zeta in Hsent', Hstats, Hcases.
    assert (Hhead : nth_error
                      (TreasureIsland.messages
                         (TreasureIsland.request lower e s)) 0
                    = Some system_prompt).
    { destruct Hcases as [(_ & Hm & _) | (_ & Hm & _)]; rewrite Hm.
      - exact Hfirst.
      - now rewrite ti_trim_first, nth_error_0_app. }
    unfold ti_invariant. rewrite Hsent', Hstats.
    repeat split; try assumption.
    + intros _. eapply ti_initialized_first. exact Hhead.
    + intros _. exact Hhead.
    + apply Forall_app. split; [exact Hsent |].
      constructor; [exact Hfirst | constructor].
  - (* from the inner loop *)
    assert (Hinit : TreasureIsland.initialized s = true).
    { apply Hloop. unfold TreasureIsland.in_loop. now rewrite Hpc. }
    specialize (Hfirst Hinit).
    assert (Hnonempty : TreasureIsland.messages s <> []).
    { intros Hnil. now rewrite Hnil in Hfirst. }
    destruct (ti_read_action_does e s) as (Hsent' & _ & Hcases).
    cbv zeta in Hsent', Hcases.
    assert (Hhead : nth_error
                      (TreasureIsland.messages
                         (TreasureIsland.read_action lower e s)) 0
                    = Some system_prompt).
    { destruct Hcases as [(c & Hm & _) | (Hm & _)]; rewrite Hm.
      - now rewrite nth_error_0_app.
      - exact Hfirst. }
    unfold ti_invariant. rewrite Hsent'.
    repeat split; try assumption.
    + intros _. eapply ti_initialized_first. exact Hhead.
    + intros _. exact Hhead.
    + destruct Hcases as [(c & _ & Hst & _) | (_ & Hst & _)]; rewrite Hst.
      * unfold TreasureIsland.add_action. ti_proj.
        rewrite length_app, Hturns. reflexivity.
      * exact Hturns.
Qed.

Lemma ti_invariant_run (e : environ) (n : nat) :
  ti_invariant game_instructions (ti_run e n).
Proof.
  induction n as [| n IH]; [apply ti_invariant_start |].
  simpl. now apply ti_invariant_step.
Qed.

(** The turn counter moves only when an action is accepted, and then by
    exactly one; in particular not on a pass whose call fails. *)
Lemma ti_turns_step (e : environ) (s : ti_state) :
  (ti_turns (ti_step e s) = ti_turns s
   /\ TreasureIsland.actions_taken (TreasureIsland.game_stats (ti_step e s))
      = TreasureIsland.actions_taken (TreasureIsland.game_stats s))
  \/ (exists c,
        TreasureIsland.pc s = AwaitingInput
        /\ ti_turns (ti_step e s) = ti_turns s + 1
        /\ TreasureIsland.messages (ti_step e s)
           = TreasureIsland.messages s
             ++ [{| role := lit "user"; content := c |}]).
Proof.
  unfold TreasureIsland.step.
  destruct (TreasureIsland.pc s) eqn:Hpc; try (left; split; reflexivity).
  - destruct (ti_request_does e s) as (_ & _ & Hstats & _).
    cbv zeta in Hstats. left. now rewrite Hstats.
  - destruct (ti_read_action_does e s) as (_ & _ & Hcases).
    cbv zeta in Hcases.
    destruct Hcases as [(c & Hm & Hst & _) | (_ & Hst & _)]; rewrite Hst.
    + right. exists c. repeat split. exact Hm.
    + left. split; reflexivity.
Qed.

End TreasureIslandLoop.

(** ** The system prompt stays first *)

(** C3.  In both programs, in every reachable state: a state of the
    session loop has a transcript; a transcript that exists has the
    system prompt (role "system", content the game instructions) as its
    element 0; and every list that was sent to the completion service
    started with the system prompt.  Initialization puts it there, and
    appending and truncation keep it. *)
Theorem system_prompt_is_always_first
    (lower : str -> str) (wg_instructions ti_instructions : str)
    (sw : Wargames.state) (st : TreasureIsland.state)
    (Hw : Wargames.reachable lower wg_instructions sw)
    (Ht : TreasureIsland.reachable lower ti_instructions st) :
  ((Wargames.in_loop sw = true -> Wargames.initialized sw = true)
   /\ (Wargames.initialized sw = true ->
       nth_error (Wargames.messages (Wargames.game_state sw)) 0
       = Some (system_message wg_instructions))
   /\ Forall (fun m => nth_error m 0 = Some (system_message wg_instructions))
             (Wargames.sent (Wargames.trace (Wargames.world sw))))
  /\ ((TreasureIsland.in_loop st = true -> TreasureIsland.initialized st = true)
      /\ (TreasureIsland.initialized st = true ->
          nth_error (TreasureIsland.messages st) 0
          = Some (system_message ti_instructions))
      /\ Forall (fun m => nth_error m 0 = Some (system_message ti_instructions))
                (TreasureIsland.sent
                   (TreasureIsland.trace (TreasureIsland.world st)))).
Proof.
  destruct Hw as (ew & nw & <-). destruct Ht as (et & nt & <-).
  split.
  - destruct (wg_invariant_run lower wg_instructions ew nw)
      as (_ & Hloop & Hfirst & Hsent).
    repeat split; assumption.
  - destruct (ti_invariant_run lower ti_instructions et nt)
      as (Hloop & Hfirst & Hsent & _).
    repeat split; assumption.
Qed.

Lemma system_prompt_is_always_first_witness :
  nth_error
    (Wargames.messages
       (Wargames.game_state
          (Wargames.run ascii_only_lower instructions session 4))) 0
  = Some (system_message instructions)
  /\ nth_error
       (TreasureIsland.messages
          (TreasureIsland.run ascii_only_lower instructions session 4)) 0
     = Some (system_message instructions).
Proof.
  destruct (system_prompt_is_always_first
              ascii_only_lower instructions instructions
              (Wargames.run ascii_only_lower instructions session 4)
              (TreasureIsland.run ascii_only_lower instructions session 4))
    as ((_ & Hw & _) & (_ & Ht & _)).
  - exists session, 4. reflexivity.
  - exists session, 4. reflexivity.
  - split; [apply Hw | apply Ht]; reflexivity.
Defined.

(** ** The credential check *)

Lemma wg_run_exited lower gi (e : environ) (n : nat) :
  Wargames.pc (Wargames.start e) = Exit 1 ->
  Wargames.run lower gi e n = Wargames.start e.
Proof.
  intros Hexit. induction n as [| n IH]; [reflexivity |].
  simpl. rewrite IH. unfold Wargames.step. now rewrite Hexit.
Qed.

Lemma ti_run_ended lower gi (e : environ) (n : nat) :
  TreasureIsland.in_loop (TreasureIsland.start gi e) = false ->
  TreasureIsland.run lower gi e n = TreasureIsland.start gi e.
Proof.
  intros Hout. induction n as [| n IH]; [reflexivity |].
  simpl. rewrite IH. unfold TreasureIsland.step.
  unfold TreasureIsland.in_loop in Hout.
  destruct (TreasureIsland.pc (TreasureIsland.start gi e));
    reflexivity || discriminate.
Qed.

(** C5.  With OPENAI_API_KEY absent both processes print an
    explanation and exit with status 1, so not with zero, having never
    entered the session loop, called the completion
    service or read a line of input.  wargames does so by its own
    check (lines 9-13); treasureisland by the exception of the client
    constructor at line 9, whose traceback says that the key must be
    set, before [main] and its guard are reached. *)
Theorem missing_key_never_starts_a_session
    (lower : str -> str) (wg_instructions ti_instructions : str)
    (e : environ) (n : nat)
    (Hkey : OPENAI_API_KEY e = None) :
  let sw := Wargames.run lower wg_instructions e n in
  let st := TreasureIsland.run lower ti_instructions e n in
  (Wargames.pc sw = Exit 1
   /\ Wargames.trace (Wargames.world sw) = [Wargames.Print Wargames.MissingKey]
   /\ Wargames.in_loop sw = false
   /\ Wargames.calls (Wargames.world sw) = 0
   /\ Wargames.reads (Wargames.world sw) = 0)
  /\ (TreasureIsland.pc st = Exit 1
      /\ TreasureIsland.trace (TreasureIsland.world st)
         = [TreasureIsland.Print TreasureIsland.ClientError]
      /\ TreasureIsland.in_loop st = false
      /\ TreasureIsland.calls (TreasureIsland.world st) = 0
      /\ TreasureIsland.reads (TreasureIsland.world st) = 0).
Proof.
  cbv zeta. split.
  - rewrite wg_run_exited; unfold Wargames.start; rewrite Hkey;
      repeat split.
  - rewrite ti_run_ended; unfold TreasureIsland.start; rewrite Hkey;
      repeat split.
Qed.

Lemma missing_key_never_starts_a_session_witness :
  Wargames.pc (Wargames.run ascii_only_lower instructions no_key 3) = Exit 1
  /\ TreasureIsland.pc
       (TreasureIsland.run ascii_only_lower instructions no_key 3) = Exit 1.
Proof.
  destruct (missing_key_never_starts_a_session
              ascii_only_lower instructions instructions no_key 3 eq_refl)
    as ((Hw & _) & (Ht & _)).
  split; [exact Hw | exact Ht].
Defined.

(** ** The turn counter *)

(** C6 at its failing input.  In wargames the pass whose call fails
    raises the turn number all the same: nothing has been answered
    and no action taken, and the counter stands at 1; the first answer
    the player ever sees is then announced as turn 2. *)
Theorem wargames_counts_the_failed_pass :
  let before := Wargames.run ascii_only_lower instructions one_failed_call 1 in
  let failed := Wargames.run ascii_only_lower instructions one_failed_call 2 in
  let answered := Wargames.run ascii_only_lower instructions one_failed_call 3 in
  Wargames.turn_number (Wargames.game_state before) = 0
  /\ Wargames.pc failed = AwaitingResponse
  /\ Wargames.messages (Wargames.game_state failed)
     = Wargames.messages (Wargames.game_state before)
  /\ Wargames.turn_number (Wargames.game_state failed) = 1
  /\ Wargames.turn_number (Wargames.game_state answered) = 2
  /\ last (Wargames.trace (Wargames.world answered)) (Wargames.Print Wargames.Welcome)
     = Wargames.Print (Wargames.AwaitingDecision 2).
Proof. vm_compute. repeat split. Qed.

(** What does hold of the counter in both programs: it never goes
    down, and in treasureisland every step either leaves it alone or
    is the acceptance of one action and raises it by one; a pass whose
    call fails changes neither the counter nor the transcript there. *)
Lemma turn_counter_steps
    (lower : str -> str) (wg_instructions : str)
    (e : environ) (sw : Wargames.state) (st : TreasureIsland.state) :
  Wargames.turn_number (Wargames.game_state sw)
  <= Wargames.turn_number
       (Wargames.game_state (Wargames.step lower wg_instructions e sw))
  /\ (TreasureIsland.turns (TreasureIsland.game_stats (TreasureIsland.step lower e st))
      = TreasureIsland.turns (TreasureIsland.game_stats st)
      \/ TreasureIsland.pc st = AwaitingInput
         /\ TreasureIsland.turns
              (TreasureIsland.game_stats (TreasureIsland.step lower e st))
            = TreasureIsland.turns (TreasureIsland.game_stats st) + 1)
  /\ (TreasureIsland.pc st = AwaitingResponse ->
      TreasureIsland.turns (TreasureIsland.game_stats (TreasureIsland.step lower e st))
      = TreasureIsland.turns (TreasureIsland.game_stats st)).
Proof.
  split; [apply wg_turn_step |]. split.
  - destruct (ti_turns_step lower e st) as [(H & _) | (c & Hpc & H & _)];
      [now left | now right].
  - intros Hpc.
    destruct (ti_turns_step lower e st) as [(H & _) | (c & Hpc' & _)];
      [exact H | congruence].
Qed.

(** ** Stripping twice *)

Lemma lstrip_clean (s : str) : clean_front (lstrip s).
Proof.
  induction s as [| c r IH]; [exact I |].
  simpl. destruct (isspace c) eqn:Hc; [exact IH | exact Hc].
Qed.

Lemma lstrip_of_clean (s : str) : clean_front s -> lstrip s = s.
Proof.
  destruct s as [| c r]; [reflexivity |].
  simpl. now intros ->.
Qed.

Lemma clean_front_prefix (t p : str) : clean_front (t ++ p) -> clean_front t.
Proof. destruct t; [intros _; exact I | exact (fun H => H)]. Qed.

(** [strip] leaves a stripped string alone. *)
Lemma strip_strip (s : str) : strip (strip s) = strip s.
Proof.
  unfold strip, rstrip.
  set (a := lstrip s).
  set (b := lstrip (rev a)).
  assert (Ha : clean_front a) by apply lstrip_clean.
  assert (Hb : clean_front b) by apply lstrip_clean.
  destruct (lstrip_suffix (rev a)) as (p & Hp & _). fold b in Hp.
  assert (Hfront : clean_front (rev b)).
  { apply clean_front_prefix with (p := rev p).
    rewrite <- rev_app_distr, <- Hp, rev_involutive. exact Ha. }
  rewrite (lstrip_of_clean (rev b) Hfront), rev_involutive.
  now rewrite (lstrip_of_clean b Hb).
Qed.

Lemma strip_nil : strip [] = [].
Proof. reflexivity. Qed.

(** ** The length cap on free-form input *)

Lemma validate_long (u : str) :
  500 < length (strip u) ->
  TreasureIsland.validate_user_input u = Some (firstn 500 (strip u))
  /\ length (firstn 500 (strip u)) = 500.
Proof.
  intros Hlong. unfold TreasureIsland.validate_user_input.
  assert (Hu : falsy u = false).
  { destruct u; [simpl in Hlong; lia | reflexivity]. }
  assert (Hs : falsy (strip u) = false).
  { destruct (strip u); [simpl in Hlong; lia | reflexivity]. }
  rewrite Hu, Hs. cbn [orb].
  unfold slice_to. cbv zeta.
  destruct (Z.ltb_spec 500 0); [lia |].
  replace (Z.to_nat (Z.min 500 (Z.of_nat (length (strip u))))) with 500 by lia.
  split; [reflexivity |].
  rewrite length_firstn. lia.
Qed.

(** C4, as stated, fails for wargames, which has no cap: the stripped
    input is stored whole, here with its 501 characters. *)
Lemma wargames_stores_long_input_whole :
  Wargames.pc (Wargames.run ascii_only_lower instructions long_input 2)
  = AwaitingInput
  /\ map (fun m => length (content m))
       (skipn 3 (Wargames.messages
                   (Wargames.game_state
                      (Wargames.run ascii_only_lower instructions long_input 3))))
     = [501]
  /\ 501 <> 500
  /\ map content
       (skipn 3 (Wargames.messages
                   (Wargames.game_state
                      (Wargames.run ascii_only_lower instructions long_input 3))))
     = [repeat 97%N 501].
Proof. vm_compute. repeat split. discriminate. Qed.

(** The inner loop of treasureisland on a long free-form input: what
    is appended is the first 500 characters of the stripped input. *)
Lemma ti_long_input_is_cut
    (lower : str -> str) (e : environ) (s : TreasureIsland.state) (raw : str)
    (Hpc : TreasureIsland.pc s = AwaitingInput)
    (Hin : stdin e (TreasureIsland.reads (TreasureIsland.world s)) = Line raw)
    (Hfree : ti_reserved lower (strip raw) = false)
    (Hlong : 500 < length (strip raw)) :
  let s' := TreasureIsland.step lower e s in
  TreasureIsland.messages s'
  = TreasureIsland.messages s
    ++ [{| role := lit "user"; content := firstn 500 (strip raw) |}]
  /\ length (firstn 500 (strip raw)) = 500
  /\ TreasureIsland.validate_user_input (strip raw)
     = Some (firstn 500 (strip raw)).
Proof.
  cbv zeta. unfold TreasureIsland.step. rewrite Hpc.
  unfold TreasureIsland.read_action. rewrite Hin.
  unfold ti_reserved in Hfree.
  apply orb_false_elim in Hfree as [Hfree Hstats].
  apply orb_false_elim in Hfree as [Hquit Hhelp].
  rewrite Hquit, Hhelp, Hstats.
  assert (Hlong' : 500 < length (strip (strip raw)))
    by now rewrite strip_strip.
  destruct (validate_long (strip raw) Hlong') as (Hval & Hlen).
  rewrite strip_strip in Hval, Hlen.
  rewrite Hval.
  destruct (firstn 500 (strip raw)) as [| c r] eqn:Hcut;
    [simpl in Hlen; lia |].
  ti_proj. repeat split. exact Hlen.
Qed.

(** The loop of wargames on any free-form input that is not blank:
    what is appended is the stripped input, all of it. *)
Lemma wg_action_is_stored_whole
    (lower : str -> str) (game_instructions : str) (e : environ)
    (s : Wargames.state) (raw : str) :
  Wargames.pc s = AwaitingInput ->
  stdin e (Wargames.reads (Wargames.world s)) = Line raw ->
  str_in (lower (strip raw)) Wargames.quit_words = false ->
  strip raw <> [] ->
  let s' := Wargames.step lower game_instructions e s in
  Wargames.pc s' = AwaitingResponse
  /\ Wargames.messages (Wargames.game_state s')
     = Wargames.messages (Wargames.game_state s)
       ++ [{| role := lit "user"; content := strip raw |}]
  /\ Wargames.calls (Wargames.world s') = Wargames.calls (Wargames.world s)
  /\ Wargames.reads (Wargames.world s')
     = S (Wargames.reads (Wargames.world s)).
Proof.
  intros Hpc Hin Hquit Hne. cbv zeta.
  unfold Wargames.step. rewrite Hpc.
  unfold Wargames.read_action. rewrite Hin, Hquit.
  assert (Hfalsy : falsy (strip raw) = false)
    by (destruct (strip raw); [congruence | reflexivity]).
  rewrite Hfalsy. wg_proj. repeat split.
Qed.

(** C4, amended.  In treasureisland a free-form input whose stripped
    length exceeds 500 is stored as a user message of exactly 500
    characters, the first 500 of the stripped input.  wargames has no
    cap: a free-form input, that is one that is not blank and not one
    of its quit words, is stored as a user message that is the stripped
    input itself, whatever its length. *)
Theorem long_input_by_program
    (lower : str -> str) (wg_instructions : str) (e : environ)
    (raw_t raw_w : str) (st : TreasureIsland.state) (sw : Wargames.state)
    (Hpc_t : TreasureIsland.pc st = AwaitingInput)
    (Hin_t : stdin e (TreasureIsland.reads (TreasureIsland.world st))
             = Line raw_t)
    (Hfree_t : ti_reserved lower (strip raw_t) = false)
    (Hlong_t : 500 < length (strip raw_t))
    (Hpc_w : Wargames.pc sw = AwaitingInput)
    (Hin_w : stdin e (Wargames.reads (Wargames.world sw)) = Line raw_w)
    (Hfree_w : str_in (lower (strip raw_w)) Wargames.quit_words = false)
    (Hfilled_w : strip raw_w <> []) :
  let st' := TreasureIsland.step lower e st in
  let sw' := Wargames.step lower wg_instructions e sw in
  (TreasureIsland.messages st'
   = TreasureIsland.messages st
     ++ [{| role := lit "user"; content := firstn 500 (strip raw_t) |}]
   /\ length (firstn 500 (strip raw_t)) = 500
   /\ TreasureIsland.validate_user_input (strip raw_t)
      = Some (firstn 500 (strip raw_t)))
  /\ (Wargames.messages (Wargames.game_state sw')
      = Wargames.messages (Wargames.game_state sw)
        ++ [{| role := lit "user"; content := strip raw_w |}]
      /\ Wargames.pc sw' = AwaitingResponse).
Proof.
  cbv zeta. split.
  - exact (ti_long_input_is_cut lower e st raw_t Hpc_t Hin_t Hfree_t Hlong_t).
  - destruct (wg_action_is_stored_whole lower wg_instructions e sw raw_w
                Hpc_w Hin_w Hfree_w Hfilled_w) as (Hpc' & Hm & _).
    split; assumption.
Qed.

Lemma long_input_by_program_witness :
  length
    (content
       (last (TreasureIsland.messages
                (TreasureIsland.step ascii_only_lower long_input
                   (TreasureIsland.run ascii_only_lower instructions
                      long_input 3)))
             (system_message [])))
  = 500
  /\ content
       (last (Wargames.messages
                (Wargames.game_state
                   (Wargames.step ascii_only_lower instructions long_input
                      (Wargames.run ascii_only_lower instructions
                         long_input 2))))
             (system_message []))
     = repeat 97%N 501.
Proof.
  destruct (long_input_by_program
              ascii_only_lower instructions long_input
              (repeat 97%N 501) (repeat 97%N 501)
              (TreasureIsland.run ascii_only_lower instructions long_input 3)
              (Wargames.run ascii_only_lower instructions long_input 2))
    as ((Ht & Hlen & _) & (Hw & _)).
  - reflexivity.
  - reflexivity.
  - reflexivity.
  - vm_compute. lia.
  - reflexivity.
  - reflexivity.
  - reflexivity.
  - discriminate.
  - split.
    + rewrite Ht, last_last. exact Hlen.
    + rewrite Hw, last_last. reflexivity.
Defined.

(** ** Reserved commands *)

Lemma reserved_lowered (lower : str -> str) (x word : str) :
  lower_on_ascii lower ->
  In word reserved_words ->
  caseless_eq x word ->
  lower x = word /\ x <> [].
Proof.
  intros Hlower Hword Hx. unfold caseless_eq in Hx.
  assert (Hw : map ascii_lower word = word /\ forallb is_ascii word = true
               /\ word <> []).
  { simpl in Hword.
    destruct Hword as [<- | [<- | [<- | [<- | [<- | []]]]]];
      repeat split; discriminate. }
  destruct Hw as (Hfix & Hascii & Hne). rewrite Hfix in Hx.
  split.
  - now apply lower_of_caseless.
  - intros ->. simpl in Hx. congruence.
Qed.

(** C7, as stated, fails for wargames, which knows no help command:
    the player types "Help", the word is appended to the transcript as
    a user message, and the next call sends it to the service. *)
Lemma wargames_sends_help_to_the_service :
  let asked := Wargames.run ascii_only_lower instructions session 2 in
  let stored := Wargames.run ascii_only_lower instructions session 3 in
  let sent := Wargames.run ascii_only_lower instructions session 4 in
  let help := {| role := lit "user"; content := lit "Help" |} in
  Wargames.pc asked = AwaitingInput
  /\ stdin session (Wargames.reads (Wargames.world asked)) = Line (lit "Help")
  /\ caseless_eq (lit "Help") (lit "help")
  /\ last (Wargames.messages (Wargames.game_state stored)) help = help
  /\ length (Wargames.messages (Wargames.game_state stored))
     = S (length (Wargames.messages (Wargames.game_state asked)))
  /\ Wargames.pc stored = AwaitingResponse
  /\ map (fun m => last m (system_message []))
       (skipn 1 (Wargames.sent (Wargames.trace (Wargames.world sent))))
     = [help].
Proof. vm_compute. repeat split. Qed.

(** C7, amended.  In treasureisland every input that, stripped, equals
    quit, exit, end, help or stats up to case is handled as a command:
    the transcript, the statistics and the list of calls stay as they
    are, and the loop ends (quit, exit, end) or asks again (help,
    stats).  In wargames only quit, exit and end are commands and end
    the session with the transcript as it is; help and stats are
    free-form input there and are appended as the next user message. *)
Theorem reserved_commands_by_program
    (lower : str -> str) (wg_instructions : str) (e : environ)
    (raw word : str) (st : TreasureIsland.state) (sw : Wargames.state)
    (Hlower : lower_on_ascii lower)
    (Hword : In word reserved_words)
    (Hraw : caseless_eq (strip raw) word)
    (Hpc_t : TreasureIsland.pc st = AwaitingInput)
    (Hin_t : stdin e (TreasureIsland.reads (TreasureIsland.world st)) = Line raw)
    (Hpc_w : Wargames.pc sw = AwaitingInput)
    (Hin_w : stdin e (Wargames.reads (Wargames.world sw)) = Line raw) :
  let st' := TreasureIsland.step lower e st in
  let sw' := Wargames.step lower wg_instructions e sw in
  (TreasureIsland.messages st' = TreasureIsland.messages st
   /\ TreasureIsland.game_stats st' = TreasureIsland.game_stats st
   /\ TreasureIsland.sent (TreasureIsland.trace (TreasureIsland.world st'))
      = TreasureIsland.sent (TreasureIsland.trace (TreasureIsland.world st))
   /\ TreasureIsland.calls (TreasureIsland.world st')
      = TreasureIsland.calls (TreasureIsland.world st)
   /\ TreasureIsland.pc st'
      = (if str_in word TreasureIsland.quit_words then Exit 0
         else AwaitingInput))
  /\ (if str_in word Wargames.quit_words then
        Wargames.messages (Wargames.game_state sw')
        = Wargames.messages (Wargames.game_state sw)
        /\ Wargames.sent (Wargames.trace (Wargames.world sw'))
           = Wargames.sent (Wargames.trace (Wargames.world sw))
        /\ Wargames.pc sw' = Exit 0
      else
        Wargames.messages (Wargames.game_state sw')
        = Wargames.messages (Wargames.game_state sw)
          ++ [{| role := lit "user"; content := strip raw |}]
        /\ Wargames.pc sw' = AwaitingResponse).
Proof.
  destruct (reserved_lowered lower (strip raw) word Hlower Hword Hraw)
    as (Hlow & Hne).
  cbv zeta.
  unfold TreasureIsland.step, Wargames.step. rewrite Hpc_t, Hpc_w.
  unfold TreasureIsland.read_action, Wargames.read_action.
  rewrite Hin_t, Hin_w, Hlow.
  assert (Hfalsy : falsy (strip raw) = false)
    by (destruct (strip raw); [congruence | reflexivity]).
  rewrite Hfalsy.
  simpl in Hword.
  destruct Hword as [<- | [<- | [<- | [<- | [<- | []]]]]].
  - change (str_in (lit "quit") TreasureIsland.quit_words) with true.
    change (str_in (lit "quit") Wargames.quit_words) with true.
    cbv iota. ti_proj. wg_proj.
    rewrite ti_sent_app, wg_sent_app. cbn [flat_map app Wargames.sent
      TreasureIsland.sent]. rewrite !app_nil_r. repeat split.
  - change (str_in (lit "exit") TreasureIsland.quit_words) with true.
    change (str_in (lit "exit") Wargames.quit_words) with true.
    cbv iota. ti_proj. wg_proj.
    rewrite ti_sent_app, wg_sent_app. cbn [flat_map app Wargames.sent
      TreasureIsland.sent]. rewrite !app_nil_r. repeat split.
  - change (str_in (lit "end") TreasureIsland.quit_words) with true.
    change (str_in (lit "end") Wargames.quit_words) with true.
    cbv iota. ti_proj. wg_proj.
    rewrite ti_sent_app, wg_sent_app. cbn [flat_map app Wargames.sent
      TreasureIsland.sent]. rewrite !app_nil_r. repeat split.
  - change (str_in (lit "help") TreasureIsland.quit_words) with false.
    change (str_in (lit "help") Wargames.quit_words) with false.
    change (str_eqb (lit "help") (lit "help")) with true.
    cbv iota. ti_proj. wg_proj.
    rewrite ti_sent_app. cbn [flat_map app TreasureIsland.sent].
    rewrite !app_nil_r. repeat split.
  - change (str_in (lit "stats") TreasureIsland.quit_words) with false.
    change (str_in (lit "stats") Wargames.quit_words) with false.
    change (str_eqb (lit "stats") (lit "help")) with false.
    change (str_eqb (lit "stats") (lit "stats")) with true.
    cbv iota. ti_proj. wg_proj.
    rewrite ti_sent_app. cbn [flat_map app TreasureIsland.sent].
    rewrite !app_nil_r. repeat split.
Qed.

Lemma reserved_commands_by_program_witness :
  TreasureIsland.messages
    (TreasureIsland.step ascii_only_lower session
       (TreasureIsland.run ascii_only_lower instructions session 3))
  = TreasureIsland.messages
      (TreasureIsland.run ascii_only_lower instructions session 3)
  /\ TreasureIsland.pc
       (TreasureIsland.step ascii_only_lower session
          (TreasureIsland.run ascii_only_lower instructions session 3))
     = AwaitingInput.
Proof.
  destruct (reserved_commands_by_program
              ascii_only_lower instructions session
              (lit "Help") (lit "help")
              (TreasureIsland.run ascii_only_lower instructions session 3)
              (Wargames.run ascii_only_lower instructions session 2)
              ascii_only_lower_ok)
    as ((Hm & _ & _ & _ & Hpc) & _).
  - simpl. auto.
  - reflexivity.
  - reflexivity.
  - reflexivity.
  - reflexivity.
  - reflexivity.
  - split; [exact Hm | exact Hpc].
Defined.

(** ** Blank input *)

(** C8, as stated, fails for wargames: at a blank line the program
    does not ask again; it appends its default action and goes on to
    the next call. *)
Lemma wargames_answers_for_a_blank_line :
  let asked := Wargames.run ascii_only_lower instructions session 6 in
  let after := Wargames.run ascii_only_lower instructions session 7 in
  Wargames.pc asked = AwaitingInput
  /\ stdin session (Wargames.reads (Wargames.world asked)) = Line (lit "   ")
  /\ forallb isspace (lit "   ") = true
  /\ Wargames.pc after = AwaitingResponse
  /\ Wargames.pc after <> AwaitingInput
  /\ Wargames.messages (Wargames.game_state after)
     = Wargames.messages (Wargames.game_state asked)
       ++ [{| role := lit "user"; content := Wargames.default_action |}]
  /\ Wargames.messages (Wargames.game_state after)
     <> Wargames.messages (Wargames.game_state asked).
Proof. vm_compute. repeat split; discriminate. Qed.

(** C8, amended.  In treasureisland an empty or all-whitespace input
    is refused: the program says so and asks again, and the transcript,
    the statistics and the list of calls stay as they are.  In wargames
    such an input is not refused: the fixed message "Continue the
    simulation and present the next decision point." is appended as the
    user message and the loop goes on to the next call. *)
Theorem blank_input_by_program
    (lower : str -> str) (wg_instructions : str) (e : environ)
    (raw : str) (st : TreasureIsland.state) (sw : Wargames.state)
    (Hlower : lower_on_ascii lower)
    (Hblank : forallb isspace raw = true)
    (Hpc_t : TreasureIsland.pc st = AwaitingInput)
    (Hin_t : stdin e (TreasureIsland.reads (TreasureIsland.world st)) = Line raw)
    (Hpc_w : Wargames.pc sw = AwaitingInput)
    (Hin_w : stdin e (Wargames.reads (Wargames.world sw)) = Line raw) :
  let st' := TreasureIsland.step lower e st in
  let sw' := Wargames.step lower wg_instructions e sw in
  (TreasureIsland.pc st' = AwaitingInput
   /\ TreasureIsland.messages st' = TreasureIsland.messages st
   /\ TreasureIsland.game_stats st' = TreasureIsland.game_stats st
   /\ TreasureIsland.calls (TreasureIsland.world st')
      = TreasureIsland.calls (TreasureIsland.world st)
   /\ TreasureIsland.reads (TreasureIsland.world st')
      = S (TreasureIsland.reads (TreasureIsland.world st))
   /\ TreasureIsland.trace (TreasureIsland.world st')
      = TreasureIsland.trace (TreasureIsland.world st)
        ++ [TreasureIsland.Print TreasureIsland.InvalidAction])
  /\ (Wargames.pc sw' = AwaitingResponse
      /\ Wargames.messages (Wargames.game_state sw')
         = Wargames.messages (Wargames.game_state sw)
           ++ [{| role := lit "user"; content := Wargames.default_action |}]).
Proof.
  assert (Hstrip : strip raw = []) by now apply strip_blank.
  assert (Hlow : lower [] = []) by now rewrite Hlower.
  cbv zeta.
  unfold TreasureIsland.step, Wargames.step. rewrite Hpc_t, Hpc_w.
  unfold TreasureIsland.read_action, Wargames.read_action.
  rewrite Hin_t, Hin_w, Hstrip, Hlow.
  change (str_in [] TreasureIsland.quit_words) with false.
  change (str_in [] Wargames.quit_words) with false.
  change (str_eqb [] (lit "help")) with false.
  change (str_eqb [] (lit "stats")) with false.
  change (TreasureIsland.validate_user_input []) with (@None str).
  cbv iota. cbn [falsy]. ti_proj. wg_proj. repeat split.
Qed.

Lemma blank_input_by_program_witness :
  TreasureIsland.pc
    (TreasureIsland.step ascii_only_lower session
       (TreasureIsland.run ascii_only_lower instructions session 5))
  = AwaitingInput
  /\ TreasureIsland.messages
       (TreasureIsland.step ascii_only_lower session
          (TreasureIsland.run ascii_only_lower instructions session 5))
     = TreasureIsland.messages
         (TreasureIsland.run ascii_only_lower instructions session 5).
Proof.
  destruct (blank_input_by_program
              ascii_only_lower instructions session (lit "   ")
              (TreasureIsland.run ascii_only_lower instructions session 5)
              (Wargames.run ascii_only_lower instructions session 6)
              ascii_only_lower_ok)
    as ((Hpc & Hm & _) & _).
  - reflexivity.
  - reflexivity.
  - reflexivity.
  - reflexivity.
  - reflexivity.
  - split; [exact Hpc | exact Hm].
Defined.

(** * Further properties of the code *)

(** ** More on the truncation *)

Lemma last_cons_nonempty {A : Type} (x d : A) (l : list A) :
  l <> [] -> last (x :: l) d = last l d.
Proof. destruct l; [congruence | reflexivity]. Qed.

Lemma last_skipn {A : Type} (k : nat) (l : list A) (d : A) :
  k < length l -> last (skipn k l) d = last l d.
Proof.
  revert l. induction k as [| k IH]; intros l Hk; [reflexivity |].
  destruct l as [| x l]; [simpl in Hk; lia |].
  simpl in Hk. simpl skipn. rewrite IH by lia.
  symmetry. apply last_cons_nonempty.
  destruct l; [simpl in Hk; lia | discriminate].
Qed.

Lemma skipn_nonempty {A : Type} (k : nat) (l : list A) :
  k < length l -> skipn k l <> [].
Proof.
  intros Hk Hnil. apply (f_equal (@length A)) in Hnil.
  rewrite length_skipn in Hnil. simpl in Hnil. lia.
Qed.

Lemma length_ti_trim (T : list Message) :
  length (TreasureIsland.trim T) = Nat.min (length T) 13.
Proof.
  destruct (Nat.le_gt_cases (length T) 13) as [Hle | Hgt].
  - rewrite ti_trim_short by assumption. lia.
  - destruct (ti_trim_long T Hgt) as (m0 & _ & ->).
    simpl. rewrite length_skipn. lia.
Qed.

Lemma length_wg_api (gs : Wargames.GameState) :
  length (fst (Wargames.get_messages_for_api gs))
  = Nat.min (length (Wargames.messages gs)) 16.
Proof.
  destruct (Nat.le_gt_cases (length (Wargames.messages gs)) 16) as [Hle | Hgt].
  - rewrite wg_api_short by assumption. lia.
  - destruct (wg_api_long gs Hgt) as (m0 & _ & ->).
    simpl. rewrite length_skipn. lia.
Qed.

(** X1.  What is kept of a long transcript, after its first message,
    is its last K messages in their order (K = 12 in treasureisland,
    15 in wargames): the messages dropped are the oldest after the
    first, and the most recent message is always kept. *)
Theorem window_is_the_most_recent_messages
    (T : list Message) (gs : Wargames.GameState) (d : Message)
    (HT : 13 < length T) (Hgs : 16 < length (Wargames.messages gs)) :
  (skipn 1 (TreasureIsland.trim T) = skipn (length T - 12) T
   /\ last (TreasureIsland.trim T) d = last T d)
  /\ (skipn 1 (fst (Wargames.get_messages_for_api gs))
      = skipn (length (Wargames.messages gs) - 15) (Wargames.messages gs)
      /\ last (fst (Wargames.get_messages_for_api gs)) d
         = last (Wargames.messages gs) d).
Proof.
  split.
  - destruct (ti_trim_long T HT) as (m0 & _ & ->).
    split; [reflexivity |].
    rewrite last_cons_nonempty by (apply skipn_nonempty; lia).
    apply last_skipn. lia.
  - destruct (wg_api_long gs Hgs) as (m0 & _ & ->).
    split; [reflexivity |].
    rewrite last_cons_nonempty by (apply skipn_nonempty; lia).
    apply last_skipn. lia.
Qed.

Lemma window_is_the_most_recent_messages_witness :
  map content (TreasureIsland.trim transcript_of_17)
  = map (fun n => [N.of_nat n]) (0 :: seq 5 12)
  /\ last (TreasureIsland.trim transcript_of_17) (numbered 0) = numbered 16.
Proof.
  destruct (window_is_the_most_recent_messages transcript_of_17
              {| Wargames.messages := transcript_of_17;
                 Wargames.turn_number := 0;
                 Wargames.scenario_name := [] |}
              (numbered 0))
    as ((_ & Hlast) & _).
  - vm_compute. lia.
  - vm_compute. lia.
  - split; [reflexivity | rewrite Hlast; reflexivity].
Defined.

(** X2.  Truncating twice is truncating once, in both programs: the
    result of a truncation is below the threshold. *)
Theorem truncation_is_idempotent (T : list Message) (gs : Wargames.GameState) :
  TreasureIsland.trim (TreasureIsland.trim T) = TreasureIsland.trim T
  /\ fst (Wargames.get_messages_for_api
            {| Wargames.messages := fst (Wargames.get_messages_for_api gs);
               Wargames.turn_number := Wargames.turn_number gs;
               Wargames.scenario_name := Wargames.scenario_name gs |})
     = fst (Wargames.get_messages_for_api gs).
Proof.
  split.
  - apply ti_trim_short. rewrite length_ti_trim. lia.
  - apply wg_api_short. simpl. rewrite length_wg_api. lia.
Qed.

(** ** Bounds on what is stored and what is sent *)

Lemma wg_api_with_turn (n : nat) (gs : Wargames.GameState) :
  fst (Wargames.get_messages_for_api (Wargames.with_turn n gs))
  = fst (Wargames.get_messages_for_api gs).
Proof.
  unfold Wargames.get_messages_for_api, Wargames.with_turn.
  cbn [Wargames.messages].
  destruct (16 <? length (Wargames.messages gs)); reflexivity.
Qed.

(** A pass of the retry loop makes at least one call. *)
Lemma wg_attempts_calls_pos (svc : nat -> outcome) (msgs : list Message)
    (attempt : nat) (rest : list nat) (w : Wargames.io) :
  Wargames.calls w
  < Wargames.calls (snd (Wargames.attempts svc msgs (attempt :: rest) w)).
Proof.
  cbn [Wargames.attempts]. cbv zeta.
  destruct (svc (Wargames.calls w)); try (cbn; lia).
  - destruct (attempt <? Wargames.max_retries - 1); [| cbn; lia].
    match goal with
    | |- _ < Wargames.calls (snd (Wargames.attempts ?f ?m ?r ?w')) =>
        destruct (wg_attempts_trace f m r w') as (_ & _ & _ & Hc & _)
    end.
    cbn in Hc. lia.
  - destruct (attempt <? Wargames.max_retries - 1); [| cbn; lia].
    match goal with
    | |- _ < Wargames.calls (snd (Wargames.attempts ?f ?m ?r ?w')) =>
        destruct (wg_attempts_trace f m r w') as (_ & _ & _ & Hc & _)
    end.
    cbn in Hc. lia.
Qed.

(** Every call of one pass of wargames carries the windowed transcript
    of the state the pass started from. *)
Lemma wg_request_sent (lower : str -> str) (e : environ) (s : Wargames.state) :
  exists k,
    1 <= k <= 3
    /\ Wargames.sent (Wargames.trace (Wargames.world (Wargames.request lower e s)))
       = Wargames.sent (Wargames.trace (Wargames.world s))
         ++ repeat (fst (Wargames.get_messages_for_api (Wargames.game_state s))) k
    /\ Wargames.calls (Wargames.world (Wargames.request lower e s))
       = Wargames.calls (Wargames.world s) + k.
Proof.
  unfold Wargames.request.
  set (gs1 := Wargames.with_turn _ (Wargames.game_state s)).
  pose proof (wg_api_snd gs1) as Hsnd.
  pose proof (wg_api_with_turn
                (Wargames.turn_number (Wargames.game_state s) + 1)
                (Wargames.game_state s)) as Hfst.
  fold gs1 in Hfst.
  destruct (Wargames.get_messages_for_api gs1) as [msgs gs2].
  simpl in Hsnd, Hfst. subst gs2. rewrite <- Hfst.
  unfold Wargames.get_ai_response.
  destruct (wg_attempts_trace (service e) msgs
              (seq 0 Wargames.max_retries) (Wargames.world s))
    as (evs & Htr & Hsent & Hcalls & _).
  pose proof (wg_attempts_calls_pos (service e) msgs 0 [1; 2]
                (Wargames.world s)) as Hmin.
  change (0 :: [1; 2]) with (seq 0 Wargames.max_retries) in Hmin.
  destruct (Wargames.attempts (service e) msgs
              (seq 0 Wargames.max_retries) (Wargames.world s)) as [ai w].
  cbn [snd] in Htr, Hsent, Hcalls, Hmin. cbn [length seq Wargames.max_retries] in Hcalls.
  exists (Wargames.calls w - Wargames.calls (Wargames.world s)).
  split; [lia |].
  destruct (startswith (lit "ERROR:") ai);
    [| destruct (Wargames.isTerminal lower ai)];
    wg_proj; rewrite Htr, !wg_sent_app, Hsent; cbn [Wargames.sent flat_map app];
    rewrite ?app_nil_r; (split; [reflexivity | lia]).
Qed.

Section Bounds.

Variable lower : str -> str.
Variable game_instructions : str.

Lemma wg_sent_bounded_step (e : environ) (s : Wargames.state) :
  Forall (fun m => length m <= 16)
         (Wargames.sent (Wargames.trace (Wargames.world s))) ->
  Forall (fun m => length m <= 16)
         (Wargames.sent
            (Wargames.trace
               (Wargames.world (Wargames.step lower game_instructions e s)))).
Proof.
  intros H. unfold Wargames.step.
  destruct (Wargames.pc s); try exact H.
  - destruct (wg_read_scenario_does game_instructions e s) as (_ & Hsent & _).
    cbv zeta in Hsent. now rewrite Hsent.
  - destruct (wg_request_sent lower e s) as (k & _ & Hsent & _).
    rewrite Hsent. apply Forall_app. split; [exact H |].
    apply Forall_forall. intros m Hm. apply repeat_spec in Hm. subst m.
    rewrite length_wg_api. lia.
  - destruct (wg_read_action_does lower e s) as (_ & Hsent & _).
    cbv zeta in Hsent. now rewrite Hsent.
Qed.

Lemma ti_bounded_step (e : environ) (s : TreasureIsland.state) :
  ti_bounded s -> ti_bounded (TreasureIsland.step lower e s).
Proof.
  intros Hb. pose proof Hb as (Hlen & Hin & Hsent).
  unfold TreasureIsland.step.
  destruct (TreasureIsland.pc s) eqn:Hpc; try exact Hb.
  - destruct (ti_request_does lower e s) as (Hsent' & _ & _ & ai & Hcases).
    cbv zeta in Hsent', Hcases.
    unfold ti_bounded. rewrite Hsent'.
    assert (Hall : Forall (fun m => length m <= 14)
                     (TreasureIsland.sent
                        (TreasureIsland.trace (TreasureIsland.world s))
                      ++ [TreasureIsland.messages s])).
    { apply Forall_app. split; [exact Hsent |]. now constructor. }
    destruct Hcases as [(_ & Hm & Hpc') | (_ & Hm & Hpc')]; rewrite Hm.
    + repeat split; try assumption. rewrite Hpc'. discriminate.
    + rewrite length_ti_trim. repeat split; try assumption; lia.
  - specialize (Hin eq_refl).
    destruct (ti_read_action_does lower e s) as (Hsent' & _ & Hcases).
    cbv zeta in Hsent', Hcases.
    unfold ti_bounded. rewrite Hsent'.
    destruct Hcases as [(c & Hm & _ & Hpc') | (Hm & _ & _)]; rewrite Hm.
    + rewrite length_app, Hpc'. simpl.
      repeat split; try assumption; try lia. discriminate.
    + repeat split; try assumption; lia.
Qed.

End Bounds.

(** X3.  In every reachable state of treasureisland the stored
    transcript has at most 14 messages, at most 13 while the player is
    asked for an action, and no call to the service ever carried more
    than 14 messages. *)
Theorem treasureisland_transcript_is_bounded
    (lower : str -> str) (game_instructions : str)
    (s : TreasureIsland.state)
    (Hs : TreasureIsland.reachable lower game_instructions s) :
  length (TreasureIsland.messages s) <= 14
  /\ (TreasureIsland.pc s = AwaitingInput ->
      length (TreasureIsland.messages s) <= 13)
  /\ Forall (fun m => length m <= 14)
            (TreasureIsland.sent (TreasureIsland.trace (TreasureIsland.world s))).
Proof.
  destruct Hs as (e & n & <-).
  change (ti_bounded (TreasureIsland.run lower game_instructions e n)).
  induction n as [| n IH].
  - unfold ti_bounded. simpl. unfold TreasureIsland.start.
    destruct (OPENAI_API_KEY e) as [[| c k] |];
      try destruct (client_rejects_empty_key e);
      cbn; repeat split; try lia; try discriminate; constructor.
  - simpl. now apply ti_bounded_step.
Qed.

Lemma treasureisland_transcript_is_bounded_witness :
  length (TreasureIsland.messages
            (TreasureIsland.run ascii_only_lower instructions session 4))
  <= 14.
Proof.
  apply (treasureisland_transcript_is_bounded ascii_only_lower instructions
           (TreasureIsland.run ascii_only_lower instructions session 4)).
  exists session, 4. reflexivity.
Defined.

(** X4.  In every reachable state of wargames, no call to the service
    ever carried more than 16 messages, however long the stored
    transcript has grown. *)
Theorem wargames_never_sends_more_than_16
    (lower : str -> str) (game_instructions : str) (s : Wargames.state)
    (Hs : Wargames.reachable lower game_instructions s) :
  Forall (fun m => length m <= 16)
         (Wargames.sent (Wargames.trace (Wargames.world s))).
Proof.
  destruct Hs as (e & n & <-).
  induction n as [| n IH].
  - simpl. unfold Wargames.start.
    destruct (OPENAI_API_KEY e) as [[| c k] |]; cbn; constructor.
  - simpl. now apply wg_sent_bounded_step.
Qed.

Lemma wargames_never_sends_more_than_16_witness :
  Forall (fun m => length m <= 16)
         (Wargames.sent
            (Wargames.trace
               (Wargames.world
                  (Wargames.run ascii_only_lower instructions session 9)))).
Proof.
  apply (wargames_never_sends_more_than_16 ascii_only_lower instructions).
  exists session, 9. reflexivity.
Defined.

(** ** More on the call with retries *)

(** Take the retry loop of wargames apart, one call after the other. *)
Ltac wg_unroll_attempts :=
  unfold Wargames.get_ai_response;
  cbn [seq Wargames.max_retries Wargames.attempts]; cbv zeta;
  change (Wargames.max_retries - 1) with 2;
  cbn [Nat.ltb Nat.leb Wargames.calls Wargames.emit Wargames.called];
  repeat match goal with
    | |- context [match ?svc ?k with Success _ => _ | _ => _ end] =>
        destruct (svc k) eqn:?
    end;
  cbn [fst snd Wargames.trace Wargames.calls Wargames.reads
       Wargames.emit Wargames.called].

(** X5.  One use of wargames' [get_ai_response] costs at most three
    calls and at least one, each with the messages it was given; it
    sleeps only between two calls, so at most twice, and for at most
    3 seconds in all; it reads no input. *)
Theorem get_ai_response_is_bounded
    (svc : nat -> outcome) (msgs : list Message) (w : Wargames.io) :
  let r := Wargames.get_ai_response svc msgs w in
  exists evs,
    Wargames.trace (snd r) = Wargames.trace w ++ evs
    /\ 1 <= length (Wargames.sent evs) <= 3
    /\ Forall (eq msgs) (Wargames.sent evs)
    /\ Wargames.calls (snd r) = Wargames.calls w + length (Wargames.sent evs)
    /\ length (Wargames.sleeps evs) < length (Wargames.sent evs)
    /\ (total (Wargames.sleeps evs) <= 3)%N
    /\ Wargames.reads (snd r) = Wargames.reads w.
Proof.
  wg_unroll_attempts;
    rewrite <- ?app_assoc;
    (eexists; split; [reflexivity |]);
    cbn; repeat split; try lia; repeat constructor.
Qed.

(** X6.  What wargames' [get_ai_response] returns is the text of its
    last call, when that call succeeded, or else a string that starts
    with "ERROR:": no failure of the service gets out as an exception
    or as anything the caller could take for an answer. *)
Theorem get_ai_response_answers_or_reports
    (svc : nat -> outcome) (msgs : list Message) (w : Wargames.io) :
  let r := Wargames.get_ai_response svc msgs w in
  svc (Wargames.calls (snd r) - 1) = Success (fst r)
  \/ startswith (lit "ERROR:") (fst r) = true.
Proof.
  wg_unroll_attempts;
    cbn [Nat.sub]; rewrite ?Nat.sub_0_r;
    try (left; assumption); right; reflexivity.
Qed.

Lemma wg_final_failure_once
    (svc : nat -> outcome) (msgs : list Message) (w : Wargames.io) :
  final_failure (svc (Wargames.calls w)) = true ->
  Wargames.calls (snd (Wargames.get_ai_response svc msgs w))
  = S (Wargames.calls w)
  /\ Wargames.reads (snd (Wargames.get_ai_response svc msgs w))
     = Wargames.reads w
  /\ Wargames.trace (snd (Wargames.get_ai_response svc msgs w))
     = Wargames.trace w ++ [Wargames.Call msgs]
  /\ startswith (lit "ERROR:") (fst (Wargames.get_ai_response svc msgs w))
     = true.
Proof.
  intros Hfirst. unfold Wargames.get_ai_response.
  cbn [seq Wargames.max_retries Wargames.attempts]. cbv zeta.
  destruct (svc (Wargames.calls w)); try discriminate; repeat split.
Qed.

(** X7.  An authentication failure or a connection failure at the
    first call is not retried by wargames: that call is the only one,
    nothing is slept or printed, and an error string is returned. *)
Theorem final_failures_are_not_retried
    (svc : nat -> outcome) (msgs : list Message) (w : Wargames.io)
    (Hfirst : final_failure (svc (Wargames.calls w)) = true) :
  let r := Wargames.get_ai_response svc msgs w in
  Wargames.calls (snd r) = S (Wargames.calls w)
  /\ Wargames.trace (snd r) = Wargames.trace w ++ [Wargames.Call msgs]
  /\ startswith (lit "ERROR:") (fst r) = true.
Proof.
  destruct (wg_final_failure_once svc msgs w Hfirst) as (Hc & _ & Ht & He).
  cbv zeta. repeat split; assumption.
Qed.

Lemma final_failures_are_not_retried_witness :
  Wargames.calls
    (snd (Wargames.get_ai_response always_unauthenticated [] io0)) = 1.
Proof.
  apply (final_failures_are_not_retried always_unauthenticated [] io0).
  reflexivity.
Defined.

(** X8.  Any other exception is retried after one second, twice at
    most; when the third attempt fails the same way, the string
    returned carries the message of that last exception. *)
Theorem unknown_failures_are_retried_twice
    (svc : nat -> outcome) (msgs : list Message) (w : Wargames.io)
    (e0 e1 e2 : str)
    (H0 : svc (Wargames.calls w) = OtherException e0)
    (H1 : svc (S (Wargames.calls w)) = OtherException e1)
    (H2 : svc (S (S (Wargames.calls w))) = OtherException e2) :
  let r := Wargames.get_ai_response svc msgs w in
  fst r = lit "ERROR: Unable to get AI response: " ++ e2
  /\ Wargames.sleeps (Wargames.trace (snd r))
     = Wargames.sleeps (Wargames.trace w) ++ [1%N; 1%N]
  /\ Wargames.calls (snd r) = Wargames.calls w + 3.
Proof.
  cbv zeta. unfold Wargames.get_ai_response.
  cbn [seq Wargames.max_retries Wargames.attempts]. cbv zeta.
  change (Wargames.max_retries - 1) with 2.
  cbn [Nat.ltb Nat.leb Wargames.calls Wargames.emit Wargames.called].
  rewrite H0, H1, H2.
  cbn [fst snd Wargames.trace Wargames.calls Wargames.emit Wargames.called].
  repeat split.
  - rewrite !wg_sleeps_app. cbn. rewrite !app_nil_r.
    now rewrite <- !app_assoc.
  - lia.
Qed.

Lemma unknown_failures_are_retried_twice_witness :
  fst (Wargames.get_ai_response always_broken [] io0)
  = lit "ERROR: Unable to get AI response: " ++ [2%N].
Proof.
  apply (unknown_failures_are_retried_twice always_broken [] io0
           [0%N] [1%N] [2%N] eq_refl eq_refl eq_refl).
Defined.

(** ** What a failed call does to the session *)

(** X9.  In treasureisland a call that fails ends the session: there
    is one call and no second try, the error string is shown, the
    transcript and the statistics stay as they were, no input is read
    and the process ends with status 0. *)
Theorem treasureisland_failed_call_ends_the_session
    (lower : str -> str) (e : environ) (s : TreasureIsland.state)
    (Hpc : TreasureIsland.pc s = AwaitingResponse)
    (Hfail : is_success (service e (TreasureIsland.calls (TreasureIsland.world s)))
             = false) :
  let s' := TreasureIsland.step lower e s in
  TreasureIsland.pc s' = Exit 0
  /\ TreasureIsland.messages s' = TreasureIsland.messages s
  /\ TreasureIsland.game_stats s' = TreasureIsland.game_stats s
  /\ TreasureIsland.calls (TreasureIsland.world s')
     = S (TreasureIsland.calls (TreasureIsland.world s))
  /\ TreasureIsland.reads (TreasureIsland.world s')
     = TreasureIsland.reads (TreasureIsland.world s)
  /\ exists text,
       startswith TreasureIsland.warning_sign text = true
       /\ TreasureIsland.trace (TreasureIsland.world s')
          = TreasureIsland.trace (TreasureIsland.world s)
            ++ [TreasureIsland.Print TreasureIsland.Loading;
                TreasureIsland.Call (TreasureIsland.messages s);
                TreasureIsland.Print (TreasureIsland.ErrorShown text)].
Proof.
  cbv zeta. unfold TreasureIsland.step. rewrite Hpc.
  unfold TreasureIsland.request, TreasureIsland.get_ai_response.
  cbn [TreasureIsland.calls TreasureIsland.emit].
  destruct (service e (TreasureIsland.calls (TreasureIsland.world s)));
    try discriminate;
    match goal with
    | |- context [startswith TreasureIsland.warning_sign ?t] =>
        replace (startswith TreasureIsland.warning_sign t) with true
          by reflexivity;
        ti_proj; repeat split; exists t;
        (split; [reflexivity | now rewrite <- !app_assoc])
    end.
Qed.

Lemma treasureisland_failed_call_ends_the_session_witness :
  TreasureIsland.pc
    (TreasureIsland.run ascii_only_lower instructions ti_first_call_fails 1)
  = Exit 0.
Proof.
  apply (treasureisland_failed_call_ends_the_session ascii_only_lower
           ti_first_call_fails
           (TreasureIsland.run ascii_only_lower instructions
              ti_first_call_fails 0)).
  - reflexivity.
  - reflexivity.
Defined.

(** A pass of wargames whose first call meets a failure that is not
    retried: the turn is counted, the error is reported, and the loop
    starts over without asking the player. *)
Lemma wg_failed_pass (lower : str -> str) (game_instructions : str)
    (e : environ) (s : Wargames.state) :
  Wargames.pc s = AwaitingResponse ->
  final_failure (service e (Wargames.calls (Wargames.world s))) = true ->
  let s' := Wargames.step lower game_instructions e s in
  Wargames.pc s' = AwaitingResponse
  /\ Wargames.messages (Wargames.game_state s')
     = Wargames.messages (Wargames.game_state s)
  /\ Wargames.turn_number (Wargames.game_state s')
     = Wargames.turn_number (Wargames.game_state s) + 1
  /\ Wargames.calls (Wargames.world s') = S (Wargames.calls (Wargames.world s))
  /\ Wargames.reads (Wargames.world s') = Wargames.reads (Wargames.world s).
Proof.
  intros Hpc Hfail. cbv zeta. unfold Wargames.step. rewrite Hpc.
  unfold Wargames.request.
  set (gs1 := Wargames.with_turn _ (Wargames.game_state s)).
  pose proof (wg_api_snd gs1) as Hsnd.
  destruct (Wargames.get_messages_for_api gs1) as [msgs gs2].
  simpl in Hsnd. subst gs2.
  destruct (wg_final_failure_once (service e) msgs (Wargames.world s) Hfail)
    as (Hc & Hr & _ & He).
  destruct (Wargames.get_ai_response (service e) msgs (Wargames.world s))
    as [ai w].
  cbn [fst snd] in Hc, Hr, He. rewrite He.
  wg_proj. subst gs1. wg_proj. repeat split; assumption.
Qed.

(** X10.  When every call of the service meets a failure that is not
    retried (a wrong key, no network), wargames never comes back to the
    player after the scenario: at every later step it is about to call
    again, having read nothing more; it has made one call and counted
    one turn per step, and the transcript is still the two messages it
    started with.  The advice it prints, to type 'quit', cannot be
    followed. *)
Theorem wargames_spins_on_a_lasting_failure
    (lower : str -> str) (game_instructions : str) (e : environ) (n : nat)
    (c : N) (key raw : str)
    (Hkey : OPENAI_API_KEY e = Some (c :: key))
    (Hin : stdin e 0 = Line raw)
    (Hsvc : forall k, final_failure (service e k) = true) :
  let s := Wargames.run lower game_instructions e (S n) in
  Wargames.pc s = AwaitingResponse
  /\ Wargames.reads (Wargames.world s) = 1
  /\ Wargames.calls (Wargames.world s) = n
  /\ Wargames.turn_number (Wargames.game_state s) = n
  /\ length (Wargames.messages (Wargames.game_state s)) = 2.
Proof.
  cbv zeta. induction n as [| n (Hpc & Hreads & Hcalls & Hturn & Hlen)].
  - simpl. unfold Wargames.start. rewrite Hkey.
    unfold Wargames.step. cbn [Wargames.pc].
    unfold Wargames.read_scenario. cbn [Wargames.world Wargames.reads].
    rewrite Hin. wg_proj. repeat split.
  - change (Wargames.run lower game_instructions e (S (S n)))
      with (Wargames.step lower game_instructions e
              (Wargames.run lower game_instructions e (S n))).
    destruct (wg_failed_pass lower game_instructions e
                (Wargames.run lower game_instructions e (S n)) Hpc (Hsvc _))
      as (Hpc' & Hm & Ht & Hc & Hr).
    cbv zeta in Hpc', Hm, Ht, Hc, Hr.
    rewrite Hpc', Hm, Ht, Hc, Hr, Hreads, Hcalls, Hturn, Hlen.
    repeat split; lia.
Qed.

Lemma wargames_spins_on_a_lasting_failure_witness :
  Wargames.pc (Wargames.run ascii_only_lower instructions wrong_key 41)
  = AwaitingResponse
  /\ Wargames.reads
       (Wargames.world (Wargames.run ascii_only_lower instructions wrong_key 41))
     = 1.
Proof.
  destruct (wargames_spins_on_a_lasting_failure ascii_only_lower instructions
              wrong_key 40 115%N (lit "k-wrong") (lit "Berlin Wall crisis")
              eq_refl eq_refl (fun _ => eq_refl))
    as (Hpc & Hreads & _).
  split; [exact Hpc | exact Hreads].
Defined.

(** ** Closed input *)

Lemma ti_answered_pass (lower : str -> str) (e : environ)
    (s : TreasureIsland.state) :
  TreasureIsland.pc s = AwaitingResponse ->
  goes_on lower (service e (TreasureIsland.calls (TreasureIsland.world s)))
  = true ->
  let s' := TreasureIsland.step lower e s in
  TreasureIsland.pc s' = AwaitingInput
  /\ TreasureIsland.game_stats s' = TreasureIsland.game_stats s
  /\ TreasureIsland.calls (TreasureIsland.world s')
     = S (TreasureIsland.calls (TreasureIsland.world s))
  /\ TreasureIsland.reads (TreasureIsland.world s')
     = TreasureIsland.reads (TreasureIsland.world s).
Proof.
  intros Hpc Hgo. cbv zeta. unfold TreasureIsland.step. rewrite Hpc.
  unfold TreasureIsland.request, TreasureIsland.get_ai_response.
  cbn [TreasureIsland.calls TreasureIsland.emit].
  destruct (service e (TreasureIsland.calls (TreasureIsland.world s)));
    try discriminate.
  cbn [goes_on] in Hgo. apply andb_prop in Hgo as [Hw Ht].
  apply negb_true_iff in Hw, Ht. rewrite Hw, Ht.
  ti_proj. repeat split.
Qed.

Lemma ti_eof_at_prompt (lower : str -> str) (e : environ)
    (s : TreasureIsland.state) :
  TreasureIsland.pc s = AwaitingInput ->
  stdin e (TreasureIsland.reads (TreasureIsland.world s)) = EOFError ->
  let s' := TreasureIsland.step lower e s in
  TreasureIsland.pc s' = AwaitingResponse
  /\ TreasureIsland.messages s' = TreasureIsland.messages s
  /\ TreasureIsland.game_stats s' = TreasureIsland.game_stats s
  /\ TreasureIsland.calls (TreasureIsland.world s')
     = TreasureIsland.calls (TreasureIsland.world s)
  /\ TreasureIsland.reads (TreasureIsland.world s')
     = S (TreasureIsland.reads (TreasureIsland.world s)).
Proof.
  intros Hpc Hin. cbv zeta. unfold TreasureIsland.step. rewrite Hpc.
  unfold TreasureIsland.read_action. rewrite Hin. ti_proj. repeat split.
Qed.

(** X11.  When the input of treasureisland is closed, the end of
    input at the prompt is caught like any error and the outer loop
    starts over: as long as the service answers without ending the
    game, the program never stops; after 2n steps it has made n calls,
    without a single action from the player. *)
Theorem treasureisland_spins_on_closed_input
    (lower : str -> str) (game_instructions : str) (e : environ) (n : nat)
    (c : N) (key : str)
    (Hkey : OPENAI_API_KEY e = Some (c :: key))
    (Hin : forall k, stdin e k = EOFError)
    (Hsvc : forall k, goes_on lower (service e k) = true) :
  let s := TreasureIsland.run lower game_instructions e (2 * n) in
  let s' := TreasureIsland.run lower game_instructions e (2 * n + 1) in
  (TreasureIsland.pc s = AwaitingResponse
   /\ TreasureIsland.calls (TreasureIsland.world s) = n
   /\ TreasureIsland.turns (TreasureIsland.game_stats s) = 0)
  /\ (TreasureIsland.pc s' = AwaitingInput
      /\ TreasureIsland.calls (TreasureIsland.world s') = n + 1
      /\ TreasureIsland.turns (TreasureIsland.game_stats s') = 0).
Proof.
  cbv zeta.
  assert (Hhalf : forall s,
             TreasureIsland.pc s = AwaitingResponse ->
             TreasureIsland.pc (TreasureIsland.step lower e s) = AwaitingInput
             /\ TreasureIsland.calls
                  (TreasureIsland.world (TreasureIsland.step lower e s))
                = TreasureIsland.calls (TreasureIsland.world s) + 1
             /\ TreasureIsland.turns
                  (TreasureIsland.game_stats (TreasureIsland.step lower e s))
                = TreasureIsland.turns (TreasureIsland.game_stats s)).
  { intros s Hpc.
    destruct (ti_answered_pass lower e s Hpc (Hsvc _)) as (Hp & Hg & Hc & _).
    cbv zeta in Hp, Hg, Hc. rewrite Hp, Hg, Hc. repeat split. lia. }
  induction n as [| n ((Hpc & Hcalls & Hturns) & (Hpc' & Hcalls' & Hturns'))].
  - assert (H0 : TreasureIsland.pc
                   (TreasureIsland.run lower game_instructions e 0)
                 = AwaitingResponse
                 /\ TreasureIsland.calls
                      (TreasureIsland.world
                         (TreasureIsland.run lower game_instructions e 0)) = 0
                 /\ TreasureIsland.turns
                      (TreasureIsland.game_stats
                         (TreasureIsland.run lower game_instructions e 0)) = 0).
    { simpl. unfold TreasureIsland.start. rewrite Hkey. repeat split. }
    destruct H0 as (Hpc & Hcalls & Hturns).
    split; [repeat split; assumption |].
    change (2 * 0 + 1) with 1.
    change (TreasureIsland.run lower game_instructions e 1)
      with (TreasureIsland.step lower e
              (TreasureIsland.run lower game_instructions e 0)).
    destruct (Hhalf _ Hpc) as (Hp & Hc & Ht).
    rewrite Hp, Hc, Ht, Hcalls, Hturns. repeat split.
  - replace (2 * S n) with (S (2 * n + 1)) by lia.
    replace (S (2 * n + 1) + 1) with (S (S (2 * n + 1))) by lia.
    set (b := TreasureIsland.run lower game_instructions e (2 * n + 1)) in *.
    change (TreasureIsland.run lower game_instructions e (S (S (2 * n + 1))))
      with (TreasureIsland.step lower e (TreasureIsland.step lower e b)).
    change (TreasureIsland.run lower game_instructions e (S (2 * n + 1)))
      with (TreasureIsland.step lower e b).
    destruct (ti_eof_at_prompt lower e b Hpc' (Hin _))
      as (Hp & _ & Hg & Hc & _).
    cbv zeta in Hp, Hg, Hc.
    destruct (Hhalf _ Hp) as (Hp2 & Hc2 & Ht2).
    rewrite Hp2, Hc2, Ht2, Hp, Hg, Hc, Hcalls', Hturns'.
    repeat split; lia.
Qed.

Lemma treasureisland_spins_on_closed_input_witness :
  TreasureIsland.pc
    (TreasureIsland.run ascii_only_lower instructions closed_input (2 * 10))
  = AwaitingResponse
  /\ TreasureIsland.calls
       (TreasureIsland.world
          (TreasureIsland.run ascii_only_lower instructions closed_input
             (2 * 10)))
     = 10.
Proof.
  destruct (treasureisland_spins_on_closed_input ascii_only_lower instructions
              closed_input 10 115%N (lit "k-test")
              eq_refl (fun _ => eq_refl) (fun _ => eq_refl))
    as ((Hpc & Hcalls & _) & _).
  split; [exact Hpc | exact Hcalls].
Defined.

(** ** The shape of the wargames transcript *)

Lemma alternating_snoc (l : list Message) (m : Message) :
  alternating l ->
  role m = expected_role (length l) ->
  alternating (l ++ [m]).
Proof.
  unfold alternating. intros Hl Hm.
  rewrite length_app, Nat.add_1_r, seq_S, !map_app, Hl. simpl.
  now rewrite Hm.
Qed.

Lemma expected_role_even (n : nat) :
  Nat.even n = true -> 2 <= n -> expected_role n = lit "assistant".
Proof.
  intros He Hn. destruct n as [| n]; [lia |].
  unfold expected_role. rewrite <- Nat.negb_even, He. reflexivity.
Qed.

Lemma expected_role_odd (n : nat) :
  Nat.odd n = true -> expected_role n = lit "user".
Proof.
  intros Ho. destruct n as [| n]; [discriminate |].
  unfold expected_role. now rewrite Ho.
Qed.

Lemma wg_shape_step (lower : str -> str) (game_instructions : str)
    (e : environ) (s : Wargames.state) :
  wg_shape s -> wg_shape (Wargames.step lower game_instructions e s).
Proof.
  intros Hs. pose proof Hs as (Halt & Hempty & Hresp & Hinp).
  unfold Wargames.step.
  destruct (Wargames.pc s) eqn:Hpc; try exact Hs.
  - specialize (Hempty eq_refl).
    destruct (wg_read_scenario_does game_instructions e s) as (Hcases & _).
    cbv zeta in Hcases. rewrite Hempty in Hcases.
    unfold wg_shape.
    destruct Hcases as [(c & Hm & Hpc') | (Hm & Hpc')]; rewrite Hm, Hpc'.
    + repeat split; try discriminate; simpl; lia.
    + repeat split; try discriminate.
  - destruct (Hresp eq_refl) as (Heven & Hlen).
    destruct (wg_request_does lower e s) as (ai & _ & _ & _ & _ & _ & Hcases).
    unfold wg_shape.
    destruct Hcases as [(_ & Hm & Hpc') | (_ & Hm & Hpc')]; rewrite Hm.
    + rewrite Hpc'. repeat split; try discriminate; assumption.
    + assert (Halt' : alternating
                        (Wargames.messages (Wargames.game_state s)
                         ++ [{| role := lit "assistant"; content := ai |}])).
      { apply alternating_snoc; [exact Halt |].
        simpl. symmetry. now apply expected_role_even. }
      rewrite length_app, Nat.add_1_r.
      destruct Hpc' as [Hpc' | Hpc']; rewrite Hpc';
        repeat split; try discriminate; try assumption.
      intros _. now rewrite Nat.odd_succ.
  - specialize (Hinp eq_refl).
    destruct (wg_read_action_does lower e s) as (Hcases & _).
    cbv zeta in Hcases. unfold wg_shape.
    destruct Hcases as [(c & Hm & Hpc') | (Hm & Hpc')]; rewrite Hm.
    + assert (Halt' : alternating
                        (Wargames.messages (Wargames.game_state s)
                         ++ [{| role := lit "user"; content := c |}])).
      { apply alternating_snoc; [exact Halt |].
        simpl. symmetry. now apply expected_role_odd. }
      rewrite length_app, Nat.add_1_r, Hpc'.
      repeat split; try discriminate; try assumption.
      * now rewrite Nat.even_succ.
      * destruct (Wargames.messages (Wargames.game_state s));
          [discriminate | simpl; lia].
    + destruct Hpc' as [Hpc' | Hpc']; rewrite Hpc';
        repeat split; try discriminate; assumption.
Qed.

(** X12.  In every reachable state of wargames the stored transcript
    is the system message followed by user and assistant messages in
    strict alternation, starting with the user's scenario; and
    whenever the service is about to be called the transcript ends
    with a user message. *)
Theorem wargames_transcript_alternates
    (lower : str -> str) (game_instructions : str) (s : Wargames.state)
    (Hs : Wargames.reachable lower game_instructions s) :
  map role (Wargames.messages (Wargames.game_state s))
  = map expected_role
      (seq 0 (length (Wargames.messages (Wargames.game_state s))))
  /\ (Wargames.pc s = AwaitingResponse ->
      forall d,
        role (last (Wargames.messages (Wargames.game_state s)) d)
        = lit "user").
Proof.
  destruct Hs as (e & n & <-).
  assert (Hshape : wg_shape (Wargames.run lower game_instructions e n)).
  { induction n as [| n IH]; [| simpl; now apply wg_shape_step].
    simpl. unfold Wargames.start, wg_shape.
    destruct (OPENAI_API_KEY e) as [[| c k] |];
      repeat split; discriminate. }
  destruct Hshape as (Halt & _ & Hresp & _).
  split; [exact Halt |].
  intros Hpc d. destruct (Hresp Hpc) as (Heven & Hlen).
  set (l := Wargames.messages _) in *.
  destruct (exists_last (l := l)) as (front & m & Hl).
  { intros Hnil. rewrite Hnil in Hlen. simpl in Hlen. lia. }
  rewrite Hl, last_last.
  unfold alternating in Halt. rewrite Hl in Halt.
  rewrite length_app, Nat.add_1_r, seq_S, !map_app in Halt. simpl in Halt.
  apply app_inj_tail in Halt as [_ Hm]. rewrite Hm.
  apply expected_role_odd.
  rewrite Hl, length_app, Nat.add_1_r, Nat.even_succ in Heven. exact Heven.
Qed.

Lemma wargames_transcript_alternates_witness :
  map role
    (Wargames.messages
       (Wargames.game_state
          (Wargames.run ascii_only_lower instructions session 5)))
  = [lit "system"; lit "user"; lit "assistant"; lit "user";
     lit "assistant"; lit "user"].
Proof.
  destruct (wargames_transcript_alternates ascii_only_lower instructions
              (Wargames.run ascii_only_lower instructions session 5))
    as (Halt & _).
  - exists session, 5. reflexivity.
  - rewrite Halt. reflexivity.
Defined.

(** ** Validation of the player's action *)

Lemma slice_to_firstn {A : Type} (j : nat) (l : list A) :
  slice_to (Z.of_nat j) l = firstn j l.
Proof.
  unfold slice_to. cbv zeta.
  destruct (Z.ltb_spec (Z.of_nat j) 0); [lia |].
  destruct (Nat.le_gt_cases j (length l)) as [Hle | Hgt].
  - f_equal. lia.
  - replace (Z.to_nat (Z.min (Z.of_nat j) (Z.of_nat (length l))))
      with (length l) by lia.
    rewrite firstn_all, firstn_all2 by lia. reflexivity.
Qed.

Lemma strip_clean (s : str) : clean_front (strip s).
Proof.
  unfold strip, rstrip.
  set (a := lstrip s).
  assert (Ha : clean_front a) by apply lstrip_clean.
  destruct (lstrip_suffix (rev a)) as (p & Hp & _).
  apply clean_front_prefix with (p := rev p).
  rewrite <- rev_app_distr, <- Hp, rev_involutive. exact Ha.
Qed.

Lemma clean_front_firstn (n : nat) (s : str) :
  clean_front s -> clean_front (firstn n s).
Proof. destruct n, s; simpl; auto. Qed.

(** What [validate_user_input] returns, in full. *)
Lemma validate_cases (u : str) :
  (forallb isspace u = true /\ TreasureIsland.validate_user_input u = None)
  \/ (forallb isspace u = false
      /\ TreasureIsland.validate_user_input u = Some (firstn 500 (strip u))
      /\ strip u <> []).
Proof.
  unfold TreasureIsland.validate_user_input.
  destruct (forallb isspace u) eqn:Hblank.
  - left. split; [reflexivity |].
    rewrite (strip_blank u Hblank). cbn [falsy]. now rewrite orb_true_r.
  - right. split; [reflexivity |].
    assert (Hs : strip u <> []).
    { intros Hnil. apply strip_nil_iff in Hnil. congruence. }
    assert (Hu : falsy u = false) by (destruct u; [discriminate | reflexivity]).
    assert (Hf : falsy (strip u) = false)
      by (destruct (strip u); [congruence | reflexivity]).
    rewrite Hu, Hf. cbn [orb].
    change 500%Z with (Z.of_nat 500). rewrite slice_to_firstn.
    split; [reflexivity | exact Hs].
Qed.

(** X13.  [validate_user_input] refuses exactly the inputs that are
    empty or all whitespace.  Any other input is accepted, and what is
    accepted is the first 500 characters of the stripped input: it is
    never empty, never longer than 500 characters, never starts with
    whitespace, and is the stripped input itself when that has at most
    500 characters. *)
Theorem validate_user_input_characterised (u : str) :
  (TreasureIsland.validate_user_input u = None
   <-> forallb isspace u = true)
  /\ (forall c,
        TreasureIsland.validate_user_input u = Some c ->
        c = firstn 500 (strip u)
        /\ c <> []
        /\ length c <= 500
        /\ clean_front c
        /\ (length (strip u) <= 500 -> c = strip u)).
Proof.
  destruct (validate_cases u) as [(Hb & Hv) | (Hb & Hv & Hs)]; rewrite Hv.
  - split; [split; auto | discriminate].
  - split; [split; [discriminate | congruence] |].
    intros c Hc.
    assert (Hcut : c = firstn 500 (strip u)) by congruence.
    clear Hc. subst c.
    split; [reflexivity |]. split; [| split; [| split]].
    + intros Hnil. apply (f_equal (@length N)) in Hnil.
      rewrite length_firstn in Hnil.
      destruct (strip u); [congruence | simpl in Hnil; lia].
    + rewrite length_firstn. lia.
    + apply clean_front_firstn, strip_clean.
    + intros Hle. now apply firstn_all2.
Qed.

(** ** The statistics of treasureisland *)

Lemma validate_well_formed (u c : str) :
  TreasureIsland.validate_user_input u = Some c -> well_formed_action c.
Proof.
  intros Hc.
  destruct (validate_cases u) as [(_ & Hv) | (_ & Hv & Hs)];
    rewrite Hv in Hc; [discriminate |].
  assert (Hcut : c = firstn 500 (strip u)) by congruence.
  clear Hc. subst c. repeat split.
  - intros Hnil. apply (f_equal (@length N)) in Hnil.
    rewrite length_firstn in Hnil.
    destruct (strip u); [congruence | simpl in Hnil; lia].
  - rewrite length_firstn. lia.
  - apply clean_front_firstn, strip_clean.
Qed.

(** The statistics change only by the acceptance of a validated
    action. *)
Lemma ti_step_stats (lower : str -> str) (e : environ)
    (s : TreasureIsland.state) :
  TreasureIsland.game_stats (TreasureIsland.step lower e s)
  = TreasureIsland.game_stats s
  \/ exists u c,
       TreasureIsland.validate_user_input u = Some c
       /\ TreasureIsland.game_stats (TreasureIsland.step lower e s)
          = TreasureIsland.add_action c (TreasureIsland.game_stats s).
Proof.
  unfold TreasureIsland.step.
  destruct (TreasureIsland.pc s); try (left; reflexivity).
  - destruct (ti_request_does lower e s) as (_ & _ & Hstats & _).
    now left.
  - unfold TreasureIsland.read_action.
    destruct (stdin e (TreasureIsland.reads (TreasureIsland.world s)))
      as [raw | |]; try (left; reflexivity).
    destruct (str_in (lower (strip raw)) TreasureIsland.quit_words);
      [left; reflexivity |].
    destruct (str_eqb (lower (strip raw)) (lit "help"));
      [left; reflexivity |].
    destruct (str_eqb (lower (strip raw)) (lit "stats"));
      [left; reflexivity |].
    destruct (TreasureIsland.validate_user_input (strip raw))
      as [[| c r] |] eqn:Hv; try (left; reflexivity).
    right. exists (strip raw), (c :: r). split; [exact Hv | reflexivity].
Qed.

(** X14.  In every reachable state of treasureisland the turn counter
    is the number of recorded actions, and every recorded action is a
    validated one: not empty, at most 500 characters long, and without
    leading whitespace. *)
Theorem treasureisland_statistics_are_consistent
    (lower : str -> str) (game_instructions : str)
    (s : TreasureIsland.state)
    (Hs : TreasureIsland.reachable lower game_instructions s) :
  TreasureIsland.turns (TreasureIsland.game_stats s)
  = length (TreasureIsland.actions_taken (TreasureIsland.game_stats s))
  /\ Forall well_formed_action
            (TreasureIsland.actions_taken (TreasureIsland.game_stats s)).
Proof.
  destruct Hs as (e & n & <-).
  induction n as [| n (Hturns & Hall)].
  - simpl. unfold TreasureIsland.start.
    destruct (OPENAI_API_KEY e) as [[| c k] |];
      try destruct (client_rejects_empty_key e);
      split; reflexivity || constructor.
  - simpl.
    destruct (ti_step_stats lower e
                (TreasureIsland.run lower game_instructions e n))
      as [Hsame | (u & c & Hv & Hadd)].
    + rewrite Hsame. split; assumption.
    + rewrite Hadd. unfold TreasureIsland.add_action. ti_proj. split.
      * rewrite length_app, Hturns. reflexivity.
      * apply Forall_app. split; [exact Hall |].
        constructor; [| constructor].
        eapply validate_well_formed. exact Hv.
Qed.

Lemma treasureisland_statistics_are_consistent_witness :
  TreasureIsland.turns
    (TreasureIsland.game_stats
       (TreasureIsland.run ascii_only_lower instructions session 8))
  = length
      (TreasureIsland.actions_taken
         (TreasureIsland.game_stats
            (TreasureIsland.run ascii_only_lower instructions session 8))).
Proof.
  apply (treasureisland_statistics_are_consistent ascii_only_lower instructions
           (TreasureIsland.run ascii_only_lower instructions session 8)).
  exists session, 8. reflexivity.
Defined.

(** ** The end-of-session check in general *)

Lemma startswith_app (k post : str) : startswith k (k ++ post) = true.
Proof.
  induction k as [| c k IH]; [reflexivity |].
  simpl. now rewrite N.eqb_refl, IH.
Qed.

Lemma contains_startswith (k h : str) :
  startswith k h = true -> contains k h = true.
Proof. intros H. destruct h; cbn [contains]; now rewrite H. Qed.

Lemma contains_app (k pre post : str) :
  contains k (pre ++ k ++ post) = true.
Proof.
  induction pre as [| c pre IH].
  - cbn [app]. apply contains_startswith, startswith_app.
  - cbn [app contains]. rewrite IH. apply orb_true_r.
Qed.

Lemma keywords_are_lower_case (kw : str) :
  In kw (Wargames.end_keywords ++ TreasureIsland.end_keywords) ->
  map ascii_lower kw = kw.
Proof.
  intros Hin. simpl in Hin.
  repeat (destruct Hin as [<- | Hin]; [reflexivity |]).
  destruct Hin.
Qed.

(** X15.  The end-of-session check looks for its keywords anywhere in
    the answer and in any case: an ASCII answer that contains a keyword
    of the program somewhere, whatever stands before and after it and
    however its letters are cased, ends the session. *)
Theorem keyword_anywhere_is_terminal
    (lower : str -> str) (pre x post kw : str)
    (Hlower : lower_on_ascii lower)
    (Hascii : forallb is_ascii (pre ++ x ++ post) = true)
    (Hx : caseless_eq x kw) :
  (In kw Wargames.end_keywords ->
   Wargames.isTerminal lower (pre ++ x ++ post) = true)
  /\ (In kw TreasureIsland.end_keywords ->
      TreasureIsland.isTerminal lower (pre ++ x ++ post) = true).
Proof.
  assert (Hfound : In kw (Wargames.end_keywords ++ TreasureIsland.end_keywords) ->
                   contains kw (lower (pre ++ x ++ post)) = true).
  { intros Hin. rewrite Hlower by assumption.
    rewrite !map_app. unfold caseless_eq in Hx.
    rewrite Hx, (keywords_are_lower_case kw Hin).
    apply contains_app. }
  split; intros Hin.
  - unfold Wargames.isTerminal. apply existsb_exists.
    exists kw. split; [exact Hin |].
    apply Hfound, in_or_app. now left.
  - unfold TreasureIsland.isTerminal. apply existsb_exists.
    exists kw. split; [exact Hin |].
    apply Hfound, in_or_app. now right.
Qed.

Lemma keyword_anywhere_is_terminal_witness :
  TreasureIsland.isTerminal ascii_only_lower
    (lit "You walk to " ++ lit "The End" ++ lit " of the dock.") = true.
Proof.
  apply (keyword_anywhere_is_terminal ascii_only_lower
           (lit "You walk to ") (lit "The End") (lit " of the dock.")
           (lit "the end") ascii_only_lower_ok).
  - reflexivity.
  - reflexivity.
  - simpl. auto.
Defined.



(** ** The scenario of wargames *)

(** X17.  Whatever line the player enters as the scenario, wargames
    starts its loop with a transcript of exactly two messages, the
    system prompt and a user message that is not empty: the stripped
    line, or the request for a random scenario when the line was empty
    or all whitespace.  The scenario name kept in the state is the
    scenario when it has at most 50 characters, and otherwise its
    first 50 characters followed by three dots, so never more than 53
    characters. *)
Theorem scenario_seeds_the_transcript
    (lower : str -> str) (game_instructions : str) (e : environ)
    (c : N) (key raw : str)
    (Hkey : OPENAI_API_KEY e = Some (c :: key))
    (Hin : stdin e 0 = Line raw) :
  let s := Wargames.run lower game_instructions e 1 in
  let scenario :=
    if forallb isspace raw then Wargames.default_scenario else strip raw in
  Wargames.pc s = AwaitingResponse
  /\ Wargames.messages (Wargames.game_state s)
     = [system_message game_instructions;
        {| role := lit "user"; content := scenario |}]
  /\ scenario <> []
  /\ Wargames.turn_number (Wargames.game_state s) = 0
  /\ length (Wargames.scenario_name (Wargames.game_state s)) <= 53
  /\ (length scenario <= 50 ->
      Wargames.scenario_name (Wargames.game_state s) = scenario)
  /\ (50 < length scenario ->
      Wargames.scenario_name (Wargames.game_state s)
      = firstn 50 scenario ++ lit "...").
Proof.
  cbv zeta. simpl Wargames.run. unfold Wargames.start. rewrite Hkey.
  unfold Wargames.step. cbn [Wargames.pc].
  unfold Wargames.read_scenario. cbn [Wargames.world Wargames.reads].
  rewrite Hin.
  assert (Hscen : (if falsy (strip raw) then Wargames.default_scenario
                   else strip raw)
                  = (if forallb isspace raw then Wargames.default_scenario
                     else strip raw)).
  { destruct (forallb isspace raw) eqn:Hb.
    - now rewrite (strip_blank raw Hb).
    - destruct (strip raw) eqn:Hs; [| reflexivity].
      apply strip_nil_iff in Hs. congruence. }
  rewrite Hscen.
  set (scenario := if forallb isspace raw then Wargames.default_scenario
                   else strip raw).
  assert (Hne : scenario <> []).
  { subst scenario. destruct (forallb isspace raw) eqn:Hb; [discriminate |].
    intros Hnil. apply strip_nil_iff in Hnil. congruence. }
  change 50%Z with (Z.of_nat 50). rewrite slice_to_firstn.
  wg_proj. unfold Wargames.GameState_init. wg_proj.
  split; [reflexivity |]. split; [reflexivity |]. split; [exact Hne |].
  split; [reflexivity |].
  destruct (Nat.ltb_spec 50 (length scenario)) as [Hlong | Hshort].
  - split; [| split; [lia | reflexivity]].
    rewrite length_app, length_firstn.
    change (length (lit "...")) with 3. lia.
  - split; [lia | split; [reflexivity | lia]].
Qed.

Lemma scenario_seeds_the_transcript_witness :
  Wargames.messages
    (Wargames.game_state
       (Wargames.run ascii_only_lower instructions blank_scenario 1))
  = [system_message instructions;
     {| role := lit "user"; content := Wargames.default_scenario |}].
Proof.
  destruct (scenario_seeds_the_transcript ascii_only_lower instructions
              blank_scenario 115%N (lit "k-test") (lit "  ")
              eq_refl eq_refl)
    as (_ & Hm & _).
  exact Hm.
Defined.

(** ** What is stored as an answer *)

Lemma Forall_skipn_of {A : Type} (P : A -> Prop) (k : nat) (l : list A) :
  Forall P l -> Forall P (skipn k l).
Proof.
  revert l. induction k as [| k IH]; intros l Hl; [exact Hl |].
  destruct l as [| x l]; [constructor |].
  simpl. apply IH. now inversion Hl.
Qed.

Lemma Forall_ti_trim (P : Message -> Prop) (T : list Message) :
  Forall P T -> Forall P (TreasureIsland.trim T).
Proof.
  intros HT.
  destruct (Nat.le_gt_cases (length T) 13) as [Hle | Hgt].
  - now rewrite ti_trim_short.
  - destruct (ti_trim_long T Hgt) as (m0 & H0 & ->).
    constructor.
    + destruct T as [| m T']; [discriminate |].
      simpl in H0. injection H0 as <-. now inversion HT.
    + now apply Forall_skipn_of.
Qed.

(** X18.  No answer that starts with the program's error marker is
    ever stored in the transcript, in any reachable state: "ERROR:" in
    wargames, the warning sign in treasureisland.  This holds also
    for a genuine answer of the service that happens to start so: it
    is treated as a failed call. *)
Theorem error_strings_are_never_stored
    (lower : str -> str) (wg_instructions ti_instructions : str)
    (sw : Wargames.state) (st : TreasureIsland.state)
    (Hw : Wargames.reachable lower wg_instructions sw)
    (Ht : TreasureIsland.reachable lower ti_instructions st) :
  Forall (clean_answer (lit "ERROR:"))
         (Wargames.messages (Wargames.game_state sw))
  /\ Forall (clean_answer TreasureIsland.warning_sign)
            (TreasureIsland.messages st).
Proof.
  destruct Hw as (ew & nw & <-). destruct Ht as (et & nt & <-).
  split.
  - induction nw as [| n IH].
    + simpl. unfold Wargames.start.
      destruct (OPENAI_API_KEY ew) as [[| c k] |]; constructor.
    + simpl. unfold Wargames.step.
      destruct (Wargames.pc (Wargames.run lower wg_instructions ew n));
        try exact IH.
      * destruct (wg_read_scenario_does wg_instructions ew
                    (Wargames.run lower wg_instructions ew n))
          as ([(c & Hm & _) | (Hm & _)] & _); rewrite Hm; [| exact IH].
        repeat (apply Forall_app; split); try exact IH;
          constructor; try constructor; intros Hrole; discriminate Hrole.
      * destruct (wg_request_does lower ew
                    (Wargames.run lower wg_instructions ew n))
          as (ai & _ & _ & _ & _ & _ & [(_ & Hm & _) | (Hok & Hm & _)]);
          rewrite Hm; [exact IH |].
        apply Forall_app. split; [exact IH |].
        constructor; [| constructor]. intros _. exact Hok.
      * destruct (wg_read_action_does lower ew
                    (Wargames.run lower wg_instructions ew n))
          as ([(c & Hm & _) | (Hm & _)] & _); rewrite Hm; [| exact IH].
        apply Forall_app. split; [exact IH |].
        constructor; [| constructor]. intros Hrole. discriminate Hrole.
  - induction nt as [| n IH].
    + simpl. unfold TreasureIsland.start.
      destruct (OPENAI_API_KEY et) as [[| c k] |];
        try destruct (client_rejects_empty_key et);
        repeat constructor; intros Hrole; discriminate Hrole.
    + simpl. unfold TreasureIsland.step.
      destruct (TreasureIsland.pc (TreasureIsland.run lower ti_instructions et n));
        try exact IH.
      * destruct (ti_request_does lower et
                    (TreasureIsland.run lower ti_instructions et n))
          as (_ & _ & _ & ai & [(_ & Hm & _) | (Hok & Hm & _)]);
          rewrite Hm; [exact IH |].
        apply Forall_ti_trim, Forall_app. split; [exact IH |].
        constructor; [| constructor]. intros _. exact Hok.
      * destruct (ti_read_action_does lower et
                    (TreasureIsland.run lower ti_instructions et n))
          as (_ & _ & [(c & Hm & _) | (Hm & _)]); rewrite Hm; [| exact IH].
        apply Forall_app. split; [exact IH |].
        constructor; [| constructor]. intros Hrole. discriminate Hrole.
Qed.

Lemma error_strings_are_never_stored_witness :
  Forall (clean_answer (lit "ERROR:"))
         (Wargames.messages
            (Wargames.game_state
               (Wargames.run ascii_only_lower instructions session 6))).
Proof.
  apply (error_strings_are_never_stored ascii_only_lower
           instructions instructions
           (Wargames.run ascii_only_lower instructions session 6)
           (TreasureIsland.run ascii_only_lower instructions session 6)).
  - exists session, 6. reflexivity.
  - exists session, 6. reflexivity.
Defined.

(** ** Calls per turn *)

Lemma wg_read_keeps_calls (lower : str -> str) (game_instructions : str)
    (e : environ) (s : Wargames.state) :
  Wargames.calls (Wargames.world (Wargames.read_scenario game_instructions e s))
  = Wargames.calls (Wargames.world s)
  /\ Wargames.calls (Wargames.world (Wargames.read_action lower e s))
     = Wargames.calls (Wargames.world s).
Proof.
  unfold Wargames.read_scenario, Wargames.read_action.
  destruct (stdin e (Wargames.reads (Wargames.world s)));
    [destruct (str_in (lower (strip raw)) Wargames.quit_words) |..];
    split; reflexivity.
Qed.

(** X19.  In every reachable state of wargames the service has been
    called at least once and at most three times per counted turn. *)
Theorem wargames_calls_per_turn
    (lower : str -> str) (game_instructions : str) (s : Wargames.state)
    (Hs : Wargames.reachable lower game_instructions s) :
  Wargames.turn_number (Wargames.game_state s)
  <= Wargames.calls (Wargames.world s)
  <= 3 * Wargames.turn_number (Wargames.game_state s).
Proof.
  destruct Hs as (e & n & <-).
  induction n as [| n IH].
  - simpl. unfold Wargames.start.
    destruct (OPENAI_API_KEY e) as [[| c k] |]; cbn; lia.
  - simpl. unfold Wargames.step.
    set (s := Wargames.run lower game_instructions e n) in *.
    destruct (wg_read_keeps_calls lower game_instructions e s) as (Hc1 & Hc2).
    destruct (Wargames.pc s); try exact IH.
    + destruct (wg_read_scenario_does game_instructions e s) as (_ & _ & Ht).
      cbv zeta in Ht. rewrite Ht, Hc1. exact IH.
    + destruct (wg_request_does lower e s) as (_ & _ & _ & _ & _ & Ht & _).
      destruct (wg_request_sent lower e s) as (k & Hk & _ & Hc).
      cbv zeta in Ht. rewrite Ht, Hc. lia.
    + destruct (wg_read_action_does lower e s) as (_ & _ & Ht).
      cbv zeta in Ht. rewrite Ht, Hc2. exact IH.
Qed.

Lemma wargames_calls_per_turn_witness :
  Wargames.turn_number
    (Wargames.game_state
       (Wargames.run ascii_only_lower instructions wrong_key 7))
  <= Wargames.calls
       (Wargames.world (Wargames.run ascii_only_lower instructions wrong_key 7)).
Proof.
  apply (wargames_calls_per_turn ascii_only_lower instructions
           (Wargames.run ascii_only_lower instructions wrong_key 7)).
  exists wrong_key, 7. reflexivity.
Defined.

(** ** Terminal output *)

Lemma written_app (a b : list tty) : written (a ++ b) = written a ++ written b.
Proof. apply flat_map_app. Qed.

Lemma pauses_app (a b : list tty) : pauses (a ++ b) = pauses a ++ pauses b.
Proof. apply flat_map_app. Qed.

Lemma repeat_snoc_cons {A : Type} (x : A) (n : nat) :
  x :: repeat x n = repeat x (S n).
Proof. reflexivity. Qed.

Lemma wg_typewriter_body (d : N) (text : str) :
  written (flat_map (fun char =>
                       Write [char]
                       :: (if (0 <? d)%N then [Pause d] else []))
                    text) = text
  /\ pauses (flat_map (fun char =>
                         Write [char]
                         :: (if (0 <? d)%N then [Pause d] else []))
                      text)
     = repeat d (if (0 <? d)%N then length text else 0).
Proof.
  induction text as [| ch text (IHw & IHp)]; [now destruct (0 <? d)%N |].
  cbn [flat_map]. rewrite written_app, pauses_app, IHw, IHp.
  destruct (0 <? d)%N; split; reflexivity.
Qed.

Lemma ti_typewriter_body (d : N) (text : str) :
  written (flat_map (fun char => [Write [char]; Pause d]) text) = text
  /\ pauses (flat_map (fun char => [Write [char]; Pause d]) text)
     = repeat d (length text).
Proof.
  induction text as [| ch text (IHw & IHp)]; [split; reflexivity |].
  cbn [flat_map]. rewrite written_app, pauses_app, IHw, IHp.
  split; reflexivity.
Qed.

(** X20.  [typewriter_print] writes the prefix, then the text one
    character at a time, then a newline, and nothing else.  In
    wargames it pauses after every character of the text when the
    delay is positive and not at all when it is zero; the configured
    delay is at most 50 ms whatever the speed setting, known or not.
    In treasureisland it pauses after every character whatever the
    delay. *)
Theorem typewriter_print_writes_the_text
    (typewriter_speed text prefix : str) (delay : option N) (ti_delay : N) :
  let d := match delay with
           | None => Wargames.get_typewriter_delay typewriter_speed
           | Some d => d
           end in
  let out := Wargames.typewriter_print typewriter_speed text delay prefix in
  let out' := TreasureIsland.typewriter_print text ti_delay in
  written out = prefix ++ text ++ newline
  /\ pauses out = repeat d (if (0 <? d)%N then length text else 0)
  /\ (Wargames.get_typewriter_delay typewriter_speed <= 50)%N
  /\ written out' = text ++ newline
  /\ pauses out' = repeat ti_delay (length text).
Proof.
  cbv zeta.
  set (d := match delay with
            | None => Wargames.get_typewriter_delay typewriter_speed
            | Some d => d
            end).
  unfold Wargames.typewriter_print, TreasureIsland.typewriter_print.
  fold d. rewrite !written_app, !pauses_app.
  assert (Hprefix : written (if falsy prefix then [] else [Write prefix])
                    = prefix
                    /\ pauses (if falsy prefix then [] else [Write prefix])
                       = []).
  { destruct prefix; cbn; rewrite ?app_nil_r; split; reflexivity. }
  destruct Hprefix as (-> & ->).
  pose proof (wg_typewriter_body d text) as Hbody.
  pose proof (ti_typewriter_body ti_delay text) as Hbody'.
  destruct Hbody as (-> & ->). destruct Hbody' as (-> & ->).
  cbn [written pauses flat_map app]. rewrite !app_nil_r.
  repeat split.
  unfold Wargames.get_typewriter_delay, Wargames.speeds. cbn [find fst snd].
  repeat match goal with
    | |- context [str_eqb ?a ?b] => destruct (str_eqb a b)
    end; cbn [snd]; lia.
Qed.

(** X21.  For a title of at most 60 characters [print_header] prints
    three lines of exactly 60 characters: two borders and, between
    them, the title with spaces on both sides, as many on the right as
    on the left or one more. *)
Theorem print_header_centres_the_title (title : str)
    (Hlen : length title <= 60) :
  Forall (fun line => length line = 60) (Wargames.print_header title)
  /\ exists l r,
       nth 1 (Wargames.print_header title) []
       = repeat 32%N l ++ title ++ repeat 32%N r
       /\ l <= r <= l + 1
       /\ l + length title + r = 60.
Proof.
  unfold Wargames.print_header, Wargames.center60. cbv zeta.
  replace (Nat.max 60 (length title)) with 60 by lia.
  set (l := (60 - length title) / 2).
  assert (Hl : 2 * l <= 60 - length title < 2 * l + 2).
  { subst l. pose proof (Nat.div_mod_eq (60 - length title) 2) as Hd.
    pose proof (Nat.mod_upper_bound (60 - length title) 2). lia. }
  split.
  - repeat constructor; rewrite ?repeat_length; try reflexivity.
    rewrite !length_app, !repeat_length. lia.
  - exists l, (60 - length title - l). cbn [nth].
    split; [reflexivity | lia].
Qed.

Lemma print_header_centres_the_title_witness :
  Forall (fun line => length line = 60)
         (Wargames.print_header (lit "GLOBAL STRATEGIC SIMULATION")).
Proof.
  apply (print_header_centres_the_title (lit "GLOBAL STRATEGIC SIMULATION")).
  vm_compute. lia.
Defined.

(** X22.  The play time that [print_stats] shows: for a session
    shorter than a day it is the whole seconds played, as minutes and
    seconds below 60; the days of a longer session are not shown, a
    play time of a day and x showing as x. *)
Theorem play_time_is_shown_in_minutes_and_seconds (elapsed_us : Z)
    (Hpos : (0 <= elapsed_us)%Z)
    (Hday : (elapsed_us < 86400 * 1000000)%Z) :
  let '(m, s) := TreasureIsland.play_time_shown elapsed_us in
  (0 <= s < 60)%Z
  /\ (0 <= m < 1440)%Z
  /\ (m * 60 + s = elapsed_us / 1000000)%Z
  /\ TreasureIsland.play_time_shown (elapsed_us + 86400 * 1000000)
     = TreasureIsland.play_time_shown elapsed_us.
Proof.
  unfold TreasureIsland.play_time_shown, TreasureIsland.timedelta_seconds.
  cbv zeta.
  assert (Hwrap : (((elapsed_us + 86400 * 1000000) / 1000000) mod 86400
                   = (elapsed_us / 1000000) mod 86400)%Z).
  { rewrite Z.div_add by lia. rewrite Z.add_mod by lia.
    rewrite Z.mod_same by lia. rewrite Z.add_0_r.
    apply Z.mod_mod. lia. }
  rewrite Hwrap.
  assert (Hsec : ((elapsed_us / 1000000) mod 86400 = elapsed_us / 1000000)%Z).
  { apply Z.mod_small. split.
    - apply Z.div_pos; lia.
    - apply Z.div_lt_upper_bound; lia. }
  rewrite Hsec.
  set (t := (elapsed_us / 1000000)%Z) in *.
  assert (Ht : (0 <= t < 86400)%Z).
  { subst t. split; [apply Z.div_pos; lia |].
    apply Z.div_lt_upper_bound; lia. }
  pose proof (Z.div_mod t 60 ltac:(lia)) as Hdm.
  pose proof (Z.mod_pos_bound t 60 ltac:(lia)) as Hm.
  repeat split; lia.
Qed.

Lemma play_time_is_shown_in_minutes_and_seconds_witness :
  let '(m, s) := TreasureIsland.play_time_shown 754321000 in
  (0 <= s < 60)%Z
  /\ (0 <= m < 1440)%Z
  /\ (m * 60 + s = 754321000 / 1000000)%Z
  /\ TreasureIsland.play_time_shown (754321000 + 86400 * 1000000)
     = TreasureIsland.play_time_shown 754321000.
Proof.
  apply (play_time_is_shown_in_minutes_and_seconds 754321000); lia.
Defined.

(** ** The window that wargames sends, and the list it keeps *)

(** A pass of wargames whose first call succeeds with an answer that
    is neither an error string nor terminal. *)
Lemma wg_answered_pass (lower : str -> str) (game_instructions : str)
    (e : environ) (s : Wargames.state) (text : str) :
  Wargames.pc s = AwaitingResponse ->
  service e (Wargames.calls (Wargames.world s)) = Success text ->
  startswith (lit "ERROR:") text = false ->
  Wargames.isTerminal lower text = false ->
  let s' := Wargames.step lower game_instructions e s in
  Wargames.pc s' = AwaitingInput
  /\ Wargames.messages (Wargames.game_state s')
     = Wargames.messages (Wargames.game_state s)
       ++ [{| role := lit "assistant"; content := text |}].
Proof.
  intros Hpc Hsvc Hok Hgo. cbv zeta.
  unfold Wargames.step. rewrite Hpc.
  unfold Wargames.request.
  set (gs1 := Wargames.with_turn _ (Wargames.game_state s)).
  pose proof (wg_api_snd gs1) as Hsnd.
  destruct (Wargames.get_messages_for_api gs1) as [msgs gs2].
  simpl in Hsnd. subst gs2.
  unfold Wargames.get_ai_response. cbn [seq Wargames.max_retries].
  rewrite attempts_success with (text := text) by assumption.
  rewrite Hok, Hgo. subst gs1. wg_proj. repeat split.
Qed.

(** No step of wargames takes anything away from the stored list. *)
Lemma wg_step_extends (lower : str -> str) (game_instructions : str)
    (e : environ) (s : Wargames.state) :
  exists added,
    Wargames.messages
      (Wargames.game_state (Wargames.step lower game_instructions e s))
    = Wargames.messages (Wargames.game_state s) ++ added.
Proof.
  unfold Wargames.step.
  destruct (Wargames.pc s);
    try (exists []; now rewrite app_nil_r).
  - destruct (wg_read_scenario_does game_instructions e s)
      as ([(c & Hm & _) | (Hm & _)] & _); rewrite Hm.
    + eexists. rewrite <- app_assoc. reflexivity.
    + exists []. now rewrite app_nil_r.
  - destruct (wg_request_does lower e s)
      as (ai & _ & _ & _ & _ & _ & [(_ & Hm & _) | (_ & Hm & _)]);
      rewrite Hm.
    + exists []. now rewrite app_nil_r.
    + eexists. reflexivity.
  - destruct (wg_read_action_does lower e s)
      as ([(c & Hm & _) | (Hm & _)] & _); rewrite Hm.
    + eexists. reflexivity.
    + exists []. now rewrite app_nil_r.
Qed.

Lemma wg_sent_bounded_run (lower : str -> str) (game_instructions : str)
    (e : environ) (n : nat) :
  Forall (fun m => length m <= 16)
         (Wargames.sent
            (Wargames.trace
               (Wargames.world (Wargames.run lower game_instructions e n)))).
Proof.
  induction n as [| n IH].
  - simpl. unfold Wargames.start.
    destruct (OPENAI_API_KEY e) as [[| c k] |]; cbn; constructor.
  - simpl. now apply wg_sent_bounded_step.
Qed.

(** In the endless session the stored list has two more messages
    after every two steps. *)
Lemma wg_endless_grows (lower : str -> str) (game_instructions : str)
    (k : nat) :
  lower_on_ascii lower ->
  Wargames.pc (Wargames.run lower game_instructions endless (1 + 2 * k))
  = AwaitingResponse
  /\ length (Wargames.messages
               (Wargames.game_state
                  (Wargames.run lower game_instructions endless (1 + 2 * k))))
     = 2 + 2 * k.
Proof.
  intros Hlower. induction k as [| k (Hpc & Hlen)].
  - split; reflexivity.
  - replace (1 + 2 * S k) with (S (S (1 + 2 * k))) by lia.
    set (s := Wargames.run lower game_instructions endless (1 + 2 * k)) in *.
    change (Wargames.run lower game_instructions endless (S (S (1 + 2 * k))))
      with (Wargames.step lower game_instructions endless
              (Wargames.step lower game_instructions endless s)).
    destruct (wg_answered_pass lower game_instructions endless s
                (lit "Tension rises. What now?") Hpc eq_refl eq_refl)
      as (Hpc1 & Hm1).
    { unfold Wargames.isTerminal. rewrite Hlower by reflexivity.
      reflexivity. }
    destruct (wg_action_is_stored_whole lower game_instructions endless
                (Wargames.step lower game_instructions endless s)
                (lit "hold the line") Hpc1 eq_refl)
      as (Hpc2 & Hm2 & _).
    { change (strip (lit "hold the line")) with (lit "hold the line").
      rewrite Hlower by reflexivity. reflexivity. }
    { discriminate. }
    split; [exact Hpc2 |].
    rewrite Hm2, Hm1, !length_app, Hlen. simpl. lia.
Qed.

(** C10.  [get_messages_for_api] hands back its state as it found it,
    so the stored list is not touched by it, and returns the stored
    list itself when that has at most 16 messages and otherwise its
    first message followed by its last 15, in their order: never more
    than 16 messages.  The stored list meanwhile only grows: no step of
    the program takes a message away from it, and there are runs in
    which it becomes longer than any given length while every list
    that was sent still has at most 16 messages. *)
Theorem get_messages_for_api_frame_and_bound
    (lower : str -> str) (game_instructions : str) (gs : Wargames.GameState)
    (Hlower : lower_on_ascii lower) :
  snd (Wargames.get_messages_for_api gs) = gs
  /\ (length (Wargames.messages gs) <= 16 ->
      fst (Wargames.get_messages_for_api gs) = Wargames.messages gs)
  /\ (16 < length (Wargames.messages gs) ->
      exists m0,
        nth_error (Wargames.messages gs) 0 = Some m0
        /\ fst (Wargames.get_messages_for_api gs)
           = m0 :: skipn (length (Wargames.messages gs) - 15)
                         (Wargames.messages gs))
  /\ length (fst (Wargames.get_messages_for_api gs)) <= 16
  /\ (forall e s,
        exists added,
          Wargames.messages
            (Wargames.game_state (Wargames.step lower game_instructions e s))
          = Wargames.messages (Wargames.game_state s) ++ added)
  /\ (forall n,
        exists s,
          Wargames.reachable lower game_instructions s
          /\ n < length (Wargames.messages (Wargames.game_state s))
          /\ Forall (fun m => length m <= 16)
                    (Wargames.sent (Wargames.trace (Wargames.world s)))).
Proof.
  split; [apply wg_api_snd |].
  split; [apply wg_api_short |].
  split; [apply wg_api_long |].
  split; [rewrite length_wg_api; lia |].
  split; [apply wg_step_extends |].
  intros n.
  exists (Wargames.run lower game_instructions endless (1 + 2 * n)).
  destruct (wg_endless_grows lower game_instructions n Hlower) as (_ & Hlen).
  split; [eexists; eexists; reflexivity |].
  split; [rewrite Hlen; lia | apply wg_sent_bounded_run].
Qed.

Lemma get_messages_for_api_frame_and_bound_witness :
  fst (Wargames.get_messages_for_api
         {| Wargames.messages := transcript_of_17;
            Wargames.turn_number := 0;
            Wargames.scenario_name := [] |})
  = numbered 0 :: skipn 2 transcript_of_17.
Proof.
  destruct (get_messages_for_api_frame_and_bound
              ascii_only_lower instructions
              {| Wargames.messages := transcript_of_17;
                 Wargames.turn_number := 0;
                 Wargames.scenario_name := [] |}
              ascii_only_lower_ok)
    as (_ & _ & Hlong & _).
  destruct Hlong as (m0 & H0 & Hfst).
  - vm_compute. lia.
  - rewrite Hfst. injection H0 as <-. reflexivity.
Defined.
